(** * MobileNetV2 feature extractor: channel rounding, block assembly and
      pretrained-weight remapping

    Shallow embedding of [tool/MobileNetV2.py].

    Conventions of the embedding:
    - Python [int] values are [Z]; [//] on ints is floor division ([Z.div]),
      [int(x)] on a number truncates toward zero ([Z.quot] on the fraction).
    - Python [float] values (the width multiplier and the rounding targets
      [c * width_mult]) are taken as exact rationals [Q]; the literals [0.9],
      [0.1] and [1.0] are the rationals 9/10, 1/10 and 1.  Where binary64
      rounding decides what the code returns, the module [Float64] gives
      the same function over IEEE 754 doubles.
    - A Python exception is a value of [exn]; code that can raise returns a
      sum [exn + A].
    - A [dict] of named tensors is a [gmap string Tensor]; the checkpoint,
      whose iteration order decides which of two colliding names wins, is an
      ordered list of items. *)

From Stdlib Require Import ZArith QArith Qround Lia Lqa List SpecFloat.
From stdpp Require Import gmap strings pretty list fin_maps.
Import ListNotations.

Local Open Scope Z_scope.

(** ** Python exceptions and the result of a call *)

Inductive exn : Type :=
| AssertionError
| AttributeError (obj attr : string)
| NameError (name : string)
| RuntimeError (msg : string)
| Exception (msg : string).

Definition result (A : Type) : Type := (exn + A)%type.

(** ** Channel rounding *)

Module Rounding.

(** [int(x)] for a number [x]: truncation toward zero. *)
Definition py_int (x : Q) : Z := Z.quot (Qnum x) (Zpos (Qden x)).

(** [_make_divisible(v, divisor, min_value=None)], lines 20-37. *)
Definition _make_divisible (v : Q) (divisor : Z) (min_value : option Z) : Z :=
  let min_value := match min_value with None => divisor | Some m => m end in
  let new_v :=
    Z.max min_value
          (py_int (v + inject_Z divisor / 2)%Q / divisor * divisor) in
  if Qlt_le_dec (inject_Z new_v) ((9 # 10) * v)%Q
  then new_v + divisor
  else new_v.

End Rounding.

(** ** Channel rounding over binary64

    The same function with Python's numbers as they are: an [int] is an
    integer, a [float] is an IEEE 754 double, with the operations of the
    Standard Library's [SpecFloat] at precision 53 (round to nearest, ties
    to even). *)

Module Float64.

Definition prec : Z := 53.
Definition emax : Z := 1024.

(** A Python number. *)
Inductive number : Type :=
| Int (n : Z)
| Float (x : spec_float).

(** The arithmetic exceptions of the function. *)
Inductive arith_exn : Type :=
| ValueError
| OverflowError
| ZeroDivisionError.

Definition finite_or_overflow (x : spec_float) : arith_exn + spec_float :=
  match x with
  | S754_infinity _ => inl OverflowError
  | _ => inr x
  end.

(** [float(n)] for an [int]: the nearest double. *)
Definition of_int (n : Z) : arith_exn + spec_float :=
  finite_or_overflow (binary_normalize prec emax n 0 false).

(** The operand of a float operation: an [int] is converted. *)
Definition to_float (v : number) : arith_exn + spec_float :=
  match v with
  | Int n => of_int n
  | Float x => inr x
  end.

(** [n / 2] for an [int]: the true quotient, correctly rounded. *)
Definition truediv_2 (n : Z) : arith_exn + spec_float :=
  finite_or_overflow (binary_normalize prec emax n (-1) false).

(** [int(x)] for a [float]: truncation toward zero. *)
Definition to_int (x : spec_float) : arith_exn + Z :=
  match x with
  | S754_zero _ => inr 0
  | S754_finite s m e =>
      let magnitude :=
        match e with
        | Zneg p => Zpos m / Zpos (Pos.pow 2 p)
        | _ => Zpos m * 2 ^ e
        end in
      inr (if s then - magnitude else magnitude)
  | S754_infinity _ => inl OverflowError
  | S754_nan => inl ValueError
  end.

(** The exact value of a finite double. *)
Definition to_Q (x : spec_float) : Q :=
  match x with
  | S754_finite s m e =>
      let magnitude :=
        match e with
        | Zneg p => Qmake (Zpos m) (Pos.pow 2 p)
        | _ => inject_Z (Zpos m * 2 ^ e)
        end in
      if s then Qopp magnitude else magnitude
  | _ => 0%Q
  end.

(** [n < x] for an [int] and a [float]: Python compares the exact
    values. *)
Definition int_lt_float (n : Z) (x : spec_float) : bool :=
  match x with
  | S754_nan => false
  | S754_infinity s => negb s
  | _ => negb (Qle_bool (to_Q x) (inject_Z n))
  end.

(** The literal [0.9]: the double 0x1.ccccccccccccdp-1. *)
Definition literal_0_9 : spec_float :=
  S754_finite false 8106479329266893 (-53).

(** [_make_divisible(v, divisor, min_value=None)], lines 20-37. *)
Definition _make_divisible (v : number) (divisor : Z) (min_value : option Z)
  : arith_exn + Z :=
  let min_value := match min_value with None => divisor | Some m => m end in
  match to_float v, truediv_2 divisor with
  | inl e, _ => inl e
  | _, inl e => inl e
  | inr vf, inr half =>
      match to_int (SFadd prec emax vf half) with
      | inl e => inl e
      | inr i =>
          if divisor =? 0 then inl ZeroDivisionError
          else
            let new_v := Z.max min_value (i / divisor * divisor) in
            if int_lt_float new_v (SFmul prec emax literal_0_9 vf)
            then inr (new_v + divisor)
            else inr new_v
      end
  end.

(** [c * width_mult] for an [int] and a [float]. *)
Definition mul_int_float (c : Z) (width_mult : spec_float)
  : arith_exn + spec_float :=
  match of_int c with
  | inl e => inl e
  | inr cf => inr (SFmul prec emax cf width_mult)
  end.

(** A bound under which every integer, and every half of one, is a double,
    so that the sum [v + divisor / 2] of line 33 is computed without
    rounding when [v] and [divisor] are integers below it. *)
Definition exact_range : Z := 2 ^ 49.

(** The double that the literal [8.88888888888889] denotes,
    0x1.1c71c71c71c72p+3. *)
Definition double_8_88888888888889 : spec_float :=
  S754_finite false 5003999585967218 (-49).

End Float64.

(** ** Primitive layers and the two basic convolution blocks *)

Module Layers.

(** The primitives of the tensor runtime this file instantiates, with the
    positional arguments of their constructors. *)
Inductive Layer : Type :=
| Conv2d (in_channels out_channels kernel_size stride padding groups : Z)
         (bias : bool)
| BatchNorm2d (num_features : Z)
| ReLU6 (inplace : bool).

(** [nn.Sequential(l1, ..., lk)] *)
Definition Sequential : Type := list Layer.

(** [conv_3x3_bn(inp, oup, stride)], lines 40-45. *)
Definition conv_3x3_bn (inp oup stride : Z) : Sequential :=
  [ Conv2d inp oup 3 stride 1 1 false; BatchNorm2d oup; ReLU6 true ].

(** [conv_1x1_bn(inp, oup)], lines 48-53. *)
Definition conv_1x1_bn (inp oup : Z) : Sequential :=
  [ Conv2d inp oup 1 1 0 1 false; BatchNorm2d oup; ReLU6 true ].

(** Output channel count of a sequence: that of its last convolution. *)
Definition out_channels_of (m : Sequential) : option Z :=
  fold_left (fun acc l =>
               match l with
               | Conv2d _ o _ _ _ _ _ => Some o
               | _ => acc
               end) m None.

End Layers.

(** ** The inverted residual block *)

Module Block.
Import Layers.

(** An instance of [InvertedResidual]: the two attributes [__init__] sets. *)
Record InvertedResidual : Type := MkInvertedResidual
  { identity : bool;
    conv : Sequential }.

(** [x in [1, 2]] *)
Definition in_1_2 (x : Z) : bool := existsb (Z.eqb x) [1; 2].

(** [InvertedResidual.__init__(self, inp, oup, stride, expand_ratio)],
    lines 57-87.  The expansion ratios of this file are the integers of the
    configuration tables, so [round(inp * expand_ratio)] rounds an [int] and
    is [inp * expand_ratio].  The argument checks of the layer constructors
    themselves (a group count that is not positive, a negative channel
    count) are left out: what is stated of a constructed block is stated
    for positive channel counts and ratio. *)
Definition InvertedResidual_init (inp oup stride expand_ratio : Z)
  : result InvertedResidual :=
  if negb (in_1_2 stride) then inl AssertionError
  else
    let hidden_dim := inp * expand_ratio in
    let identity := (stride =? 1) && (inp =? oup) in
    inr {| identity := identity;
           conv :=
             if expand_ratio =? 1 then
               [ Conv2d hidden_dim hidden_dim 3 stride 1 hidden_dim false;
                 BatchNorm2d hidden_dim;
                 ReLU6 true;
                 Conv2d hidden_dim oup 1 1 0 1 false;
                 BatchNorm2d oup ]
             else
               [ Conv2d inp hidden_dim 1 1 0 1 false;
                 BatchNorm2d hidden_dim;
                 ReLU6 true;
                 Conv2d hidden_dim hidden_dim 3 stride 1 hidden_dim false;
                 BatchNorm2d hidden_dim;
                 ReLU6 true;
                 Conv2d hidden_dim oup 1 1 0 1 false;
                 BatchNorm2d oup ] |}.

(** Forward evaluation over an arbitrary tensor runtime: the tensors, their
    addition and the action of each primitive layer are the runtime's. *)
Section Forward.
Context {Tensor : Type}.
Variable tensor_add : Tensor -> Tensor -> Tensor.
Variable layer_forward : Layer -> Tensor -> Tensor.

(** [nn.Sequential.forward]: the layers in order. *)
Definition Sequential_forward (m : Sequential) (x : Tensor) : Tensor :=
  fold_left (fun acc l => layer_forward l acc) m x.

(** [InvertedResidual.forward(self, x)], lines 89-93.  The method reads
    [self.identity] and [self.conv] and assigns neither: the instance it
    leaves behind is the instance it was given. *)
Definition InvertedResidual_forward (self : InvertedResidual) (x : Tensor)
  : InvertedResidual * Tensor :=
  if identity self
  then (self, tensor_add x (Sequential_forward (conv self) x))
  else (self, Sequential_forward (conv self) x).

End Forward.

End Block.

(** ** The network assembler *)

Module Assembler.
Import Rounding Layers Block.

(** What the constructor does that a caller can observe besides the
    network it returns: the calls it makes to the channel rounding and to
    the block constructor, in order, with their arguments. *)
Inductive event : Type :=
| RoundCall (v : Q) (divisor : Z)
| BlockCall (inp oup stride expand_ratio : Z).

(** A computation that may raise and that records its calls. *)
Definition M (A : Type) : Type := result (A * list event).

Definition ret {A} (a : A) : M A := inr (a, []).

Definition raise {A} (e : exn) : M A := inl e.

Definition tell (ev : event) : M unit := inr (tt, [ev]).

Definition bind {A B} (m : M A) (k : A -> M B) : M B :=
  match m with
  | inl e => inl e
  | inr (a, w1) =>
      match k a with
      | inl e => inl e
      | inr (b, w2) => inr (b, w1 ++ w2)
      end
  end.

Declare Scope py_scope.
Delimit Scope py_scope with py.
Notation "x <- m ;; k" := (bind m (fun x => k))
  (at level 100, m at next level, right associativity) : py_scope.
Local Open Scope py_scope.

(** A [for] loop over a list, threading the variables its body assigns. *)
Fixpoint for_each {A S} (xs : list A) (body : A -> S -> M S) (s : S) : M S :=
  match xs with
  | [] => ret s
  | x :: xs' => s' <- body x s ;; for_each xs' body s'
  end.

(** [range(n)] *)
Definition range (n : Z) : list Z := map Z.of_nat (seq 0 (Z.to_nat n)).

(** The call [_make_divisible(v, divisor)], recorded. *)
Definition call_make_divisible (v : Q) (divisor : Z) : M Z :=
  _ <- tell (RoundCall v divisor) ;;
  ret (_make_divisible v divisor None).

(** The call [block(inp, oup, stride, t)], recorded; [block] is
    [InvertedResidual]. *)
Definition call_block (inp oup stride expand_ratio : Z) : M InvertedResidual :=
  _ <- tell (BlockCall inp oup stride expand_ratio) ;;
  match InvertedResidual_init inp oup stride expand_ratio with
  | inl e => raise e
  | inr b => ret b
  end.

(** A member of [layers]: the stem sequence or a block. *)
Inductive Child : Type :=
| Stem (m : Sequential)
| IRBlock (b : InvertedResidual).

(** A configuration row [t, c, n, s]. *)
Definition row : Type := (Z * Z * Z * Z)%type.

(** [width_mult == 0.1] *)
Definition is_0_1 (width_mult : Q) : bool := Qeq_bool width_mult (1 # 10).

(** [width_mult > 1.0] *)
Definition gt_1_0 (width_mult : Q) : bool :=
  if Qlt_le_dec 1 width_mult then true else false.

(** The loop of lines 118-122 (and, on the second table, 125-129): the
    variables it assigns are [input_channel] and the list of layers. *)
Definition build_rows (width_mult : Q) (cfgs : list row)
  (st : Z * list Child) : M (Z * list Child) :=
  for_each cfgs
    (fun '(t, c, n, s) '(input_channel, layers) =>
       output_channel <-
         call_make_divisible (inject_Z c * width_mult)
                             (if is_0_1 width_mult then 4 else 8) ;;
       for_each (range n)
         (fun i '(input_channel, layers) =>
            b <- call_block input_channel output_channel
                            (if i =? 0 then s else 1) t ;;
            ret (output_channel, layers ++ [IRBlock b]))
         (input_channel, layers))
    st.

(** An instance of [MobileNetV2]: its structural attributes. *)
Record MobileNetV2 : Type := MkMobileNetV2
  { cfgs1 : list row;
    cfgs2 : list row;
    features : list Child;
    features2 : list Child;
    conv : Sequential }.

(** The body of [MobileNetV2.__init__], lines 113-133, over the two tables
    the constructor has stored in [self.cfgs1] and [self.cfgs2].
    [_initialize_weights] (line 137) assigns tensor values to the layers
    built here and changes no layer and no channel count. *)
Definition assemble (tbl1 tbl2 : list row) (width_mult : Q) : M MobileNetV2 :=
  input_channel <-
    call_make_divisible (32 * width_mult)
                        (if is_0_1 width_mult then 4 else 8) ;;
  let layers := [Stem (conv_3x3_bn 3 input_channel 2)] in
  st1 <- build_rows width_mult tbl1 (input_channel, layers) ;;
  let '(input_channel, layers) := st1 in
  st2 <- build_rows width_mult tbl2 (input_channel, []) ;;
  let '(input_channel, layers2) := st2 in
  output_channel <-
    (if gt_1_0 width_mult
     then call_make_divisible (1280 * width_mult)
                              (if is_0_1 width_mult then 4 else 8)
     else ret 1280) ;;
  ret {| cfgs1 := tbl1;
         cfgs2 := tbl2;
         features := layers;
         features2 := layers2;
         conv := conv_1x1_bn input_channel output_channel |}.

(** The tables of lines 100-112. *)
Definition table1 : list row :=
  [ (1, 16, 1, 1);
    (6, 24, 2, 2);
    (6, 32, 3, 2);
    (6, 64, 4, 2);
    (6, 96, 3, 1) ].

Definition table2 : list row :=
  [ (6, 160, 3, 2);
    (6, 320, 1, 1) ].

(** [MobileNetV2(width_mult=...)] *)
Definition MobileNetV2_init (width_mult : Q) : M MobileNetV2 :=
  assemble table1 table2 width_mult.

End Assembler.

(** ** Python strings *)

Module PyStr.

(** The text inserted before and after every character when the pattern of
    [str.replace] is empty. *)
Fixpoint intersperse (new s : string) : string :=
  match s with
  | EmptyString => EmptyString
  | String c s' => String c (new +:+ intersperse new s')
  end.

(** Scan for [str.replace] with a non-empty pattern: left to right, without
    overlap, never rescanning what it has written.  [skip] counts the
    characters of a replaced occurrence still to be passed over. *)
Fixpoint replace_from (old new : string) (skip : nat) (s : string) : string :=
  match s with
  | EmptyString => EmptyString
  | String c s' =>
      match skip with
      | S k => replace_from old new k s'
      | O =>
          if String.prefix old s
          then new +:+ replace_from old new (String.length old - 1) s'
          else String c (replace_from old new O s')
      end
  end.

(** [s.replace(old, new)] *)
Definition str_replace (s old new : string) : string :=
  match old with
  | EmptyString => new +:+ intersperse new s
  | _ => replace_from old new O s
  end.

End PyStr.

(** ** The pretrained loader *)

Module Loader.
Import Assembler PyStr.

Local Open Scope string_scope.

(** *** Evaluation of the module's top level

    The statements of the file that bind a name, in order.  A [class]
    statement first evaluates its base-class expression, an attribute of
    the module object [nn]. *)
Inductive stmt : Type :=
| Bind (name : string)
| ClassDef (name : string) (nn_base : string).

Definition module_body : list stmt :=
  [ Bind "nn"; Bind "math"; Bind "torch"; Bind "__all__";
    Bind "load_state_dict_from_url";
    Bind "_make_divisible"; Bind "conv_3x3_bn"; Bind "conv_1x1_bn";
    ClassDef "InvertedResidual" "Module";
    ClassDef "MobileNetV2" "Module";
    ClassDef "mnv2_model" "module" ].

Definition stmt_name (st : stmt) : string :=
  match st with
  | Bind x => x
  | ClassDef x _ => x
  end.

(** The names of the interpreter's [builtins] module. *)
Definition builtins : list string :=
  [ "abs"; "all"; "any"; "ascii"; "bin"; "bool"; "breakpoint"; "bytearray";
    "bytes"; "callable"; "chr"; "classmethod"; "compile"; "complex";
    "delattr"; "dict"; "dir"; "divmod"; "enumerate"; "eval"; "exec";
    "filter"; "float"; "format"; "frozenset"; "getattr"; "globals";
    "hasattr"; "hash"; "help"; "hex"; "id"; "input"; "int"; "isinstance";
    "issubclass"; "iter"; "len"; "list"; "locals"; "map"; "max";
    "memoryview"; "min"; "next"; "object"; "oct"; "open"; "ord"; "pow";
    "print"; "property"; "range"; "repr"; "reversed"; "round"; "set";
    "setattr"; "slice"; "sorted"; "staticmethod"; "str"; "sum"; "super";
    "tuple"; "type"; "vars"; "zip"; "__import__";
    "True"; "False"; "None"; "Ellipsis"; "NotImplemented"; "__debug__";
    "BaseException"; "Exception"; "ArithmeticError"; "AssertionError";
    "AttributeError"; "ImportError"; "IndexError"; "KeyError";
    "LookupError"; "NameError"; "NotImplementedError"; "OSError";
    "OverflowError"; "RuntimeError"; "StopIteration"; "TypeError";
    "ValueError"; "ZeroDivisionError" ].

(** The names bound in the module once every statement has run. *)
Definition module_globals : list string :=
  [ "__name__"; "__doc__"; "__file__"; "__builtins__" ]
  ++ map stmt_name module_body.

(** What the strict load needs of the tensor runtime: its size test for one
    entry.  [fits p v] holds when the tensor [v] of a mapping has the shape
    of the parameter that holds [p], so that it can be copied into it; a
    parameter can take back its own tensor. *)
Class SizeTest (Tensor : Type) : Type := MkSizeTest
  { fits : Tensor -> Tensor -> bool;
    fits_same : forall p : Tensor, fits p p = true }.

(** Two tensor types for examples: scalars, which all have one shape, and
    vectors, whose shape is their length. *)
#[global] Instance scalar_size_test : SizeTest Z :=
  {| fits := fun _ _ => true;
     fits_same := fun _ => eq_refl |}.

#[global] Instance vector_size_test : SizeTest (list Z) :=
  {| fits := fun p v => Nat.eqb (length p) (length v);
     fits_same := fun p => Nat.eqb_refl (length p) |}.

Section Runtime.

(** Whether the module object [nn] has an attribute of a given name. *)
Variable nn_has : string -> bool.

(** [nn.attr] *)
Definition getattr_nn (attr : string) : result unit :=
  if nn_has attr then inr tt else inl (AttributeError "torch.nn" attr).

(** Running the statements from the top: each binds its name; the first
    that raises ends the run and nothing below it is bound. *)
Fixpoint exec_body (body : list stmt) (bound : list string)
  : result (list string) :=
  match body with
  | [] => inr bound
  | Bind x :: rest => exec_body rest (bound ++ [x])
  | ClassDef x base :: rest =>
      match getattr_nn base with
      | inl e => inl e
      | inr _ => exec_body rest (bound ++ [x])
      end
  end.

Definition exec_module : result (list string) :=
  exec_body module_body [ "__name__"; "__doc__"; "__file__"; "__builtins__" ].

(** *** The loader's method *)

Context {Tensor : Type}.
Context {size_test : SizeTest Tensor}.

(** The values the constructor leaves in the network's parameters
    ([_initialize_weights] and the runtime's defaults), by name. *)
Variable initial_params : MobileNetV2 -> gmap string Tensor.

(** [load_state_dict_from_url(url, progress=True)]: the checkpoint's items
    in their order, or the exception of a failed fetch. *)
Variable load_state_dict_from_url :
  string -> result (list (string * Tensor)).

(** A constructed network with the values of its parameters. *)
Record Model : Type := MkModel
  { net : MobileNetV2;
    params : gmap string Tensor }.

(** An instance of [mnv2_model]: [self.pretrained], [None] or a string. *)
Record mnv2_model : Type := Mk_mnv2_model
  { pretrained : option string }.

(** Truth value of [None] or a string *)
Definition truthy (p : option string) : bool :=
  match p with
  | None => false
  | Some EmptyString => false
  | Some _ => true
  end.

(** [model.state_dict()] *)
Definition state_dict (model : Model) : gmap string Tensor := params model.

(** Every tensor of the mapping [d] fits the parameter of its name. *)
Definition fits_all (p d : gmap string Tensor) : Prop :=
  map_Forall
    (fun k v => from_option (fun p0 => fits p0 v) false (p !! k) = true) d.

(** [model.load_state_dict(d)], strict: the names of [d] must be the
    network's and every tensor of [d] must fit the parameter of its name;
    then the values of [d] are copied into the parameters. *)
Definition load_state_dict (model : Model) (d : gmap string Tensor)
  : result Model :=
  if decide (dom d = dom (params model)
             /\ map_Forall
                  (fun k v =>
                     from_option (fun p0 => fits p0 v) false
                                 (params model !! k) = true) d)
  then inr {| net := net model; params := d |}
  else inl (RuntimeError "Error(s) in loading state_dict").

(** Lines 180-183: the four replacements applied to an internal name. *)
Definition remap_name (k2 : string) : string :=
  let n2 := str_replace k2 "features2.0." "features.14." in
  let n2 := str_replace n2 "features2.1." "features.15." in
  let n2 := str_replace n2 "features2.2." "features.16." in
  let n2 := str_replace n2 "features2.3." "features.17." in
  n2.

(** Line 176: [k1.replace('module.', '')]. *)
Definition strip_module (k1 : string) : string :=
  str_replace k1 "module." EmptyString.

(** Lines 179-187: the inner loop over the items of [model_dict], which
    assigns to the key it is visiting. *)
Definition inner_loop (n1 : string) (v1 : Tensor)
  (model_dict : gmap string Tensor) : gmap string Tensor :=
  map_fold
    (fun k2 (_ : Tensor) acc =>
       if String.eqb n1 (remap_name k2) then <[k2 := v1]> acc else acc)
    model_dict model_dict.

(** Lines 175-187: the outer loop over the items of the checkpoint. *)
Definition remap_loop (checkpoint : list (string * Tensor))
  (model_dict : gmap string Tensor) : gmap string Tensor :=
  fold_left
    (fun d item => inner_loop (strip_module (fst item)) (snd item) d)
    checkpoint model_dict.

(** A read of a name that the function body never assigns: the module's
    globals, then the builtins. *)
Definition load_global (globals : list string) (x : string) : result string :=
  if existsb (String.eqb x) (globals ++ builtins)
  then inr ("<" +:+ x +:+ ">")
  else inl (NameError x).

(** [mnv2_model.mobilenetv2(self, **kwargs)], lines 168-193, run with the
    module's globals. *)
Definition mobilenetv2 (globals : list string) (self : mnv2_model)
  : result Model :=
  match MobileNetV2_init 1 with
  | inl e => inl e
  | inr (m, _) =>
      let model := {| net := m; params := initial_params m |} in
      if truthy (pretrained self) then
        let model_dict := state_dict model in
        match load_state_dict_from_url
                (match pretrained self with Some url => url | None => EmptyString end)
        with
        | inl e => inl e
        | inr checkpoint =>
            let model_dict := remap_loop checkpoint model_dict in
            load_state_dict model model_dict
        end
      else
        match load_global globals "pretrained" with
        | inl e => inl e
        | inr shown =>
            inl (Exception
                   ("darknet request a pretrained path. got [" +:+ shown +:+ "]"))
        end
  end.

(** Importing the file and then calling
    [mnv2_model(pretrained).mobilenetv2()]. *)
Definition use_loader (p : option string) : result Model :=
  match exec_module with
  | inl e => inl e
  | inr globals => mobilenetv2 globals {| pretrained := p |}
  end.

End Runtime.

(** The message the [raise] of line 192 is written to produce for a value
    of [self.pretrained]. *)
Definition missing_source_message (p : option string) : string :=
  "darknet request a pretrained path. got ["
  +:+ match p with None => "None" | Some s => s end +:+ "]".

(** The stripping as the specification words it: the name prefix
    [module.], taken off the front of an external name that starts with
    it. *)
Definition strip_module_prefix (k1 : string) : string :=
  if String.prefix "module." k1
  then String.substring 7 (String.length k1 - 7) k1
  else k1.

End Loader.

(** ** Vocabulary of the statements *)

Module Obs.
Import Rounding Layers Block Assembler.

(** The arguments of one call of the block constructor:
    [(inp, oup, stride, expand_ratio)]. *)
Definition block_args : Type := (Z * Z * Z * Z)%type.

Definition arg_inp (a : block_args) : Z := let '(i, _, _, _) := a in i.
Definition arg_oup (a : block_args) : Z := let '(_, o, _, _) := a in o.
Definition arg_stride (a : block_args) : Z := let '(_, _, s, _) := a in s.
Definition arg_ratio (a : block_args) : Z := let '(_, _, _, t) := a in t.

(** The block-constructor calls of a run, in order. *)
Definition block_calls (tr : list event) : list block_args :=
  flat_map (fun e =>
              match e with
              | BlockCall i o s t => [(i, o, s, t)]
              | RoundCall _ _ => []
              end) tr.

(** The rounding calls of a run, in order: [(v, divisor)]. *)
Definition round_calls (tr : list event) : list (Q * Z) :=
  flat_map (fun e =>
              match e with
              | RoundCall v d => [(v, d)]
              | BlockCall _ _ _ _ => []
              end) tr.

(** Each block takes as input channels what the one before it (or, for the
    first, the layer in front of the sequence) puts out. *)
Fixpoint chained (c : Z) (bs : list block_args) : Prop :=
  match bs with
  | [] => True
  | a :: bs' => arg_inp a = c /\ chained (arg_oup a) bs'
  end.

(** The blocks among the members of a stage. *)
Definition blocks_of (cs : list Child) : list InvertedResidual :=
  flat_map (fun c =>
              match c with
              | IRBlock b => [b]
              | Stem _ => []
              end) cs.

(** The output channel count of every member of the network, in order:
    the first stage, the second stage, the final projection. *)
Definition child_channels (c : Child) : option Z :=
  match c with
  | Stem m => out_channels_of m
  | IRBlock b => out_channels_of (Block.conv b)
  end.

Definition channel_sequence (net : MobileNetV2) : list (option Z) :=
  map child_channels (features net)
  ++ map child_channels (features2 net)
  ++ [out_channels_of (Assembler.conv net)].

(** The sum of the repeat counts of a table. *)
Definition repeats_sum (tbl : list row) : Z :=
  fold_right (fun '(_, _, n, _) acc => n + acc) 0 tbl.

(** What a row asks of the segment of constructor calls made for it. *)
Definition row_segment (width_mult : Q) (r : row) (seg : list block_args)
  : Prop :=
  let '(t, c, n, s) := r in
  Z.of_nat (length seg) = n
  /\ (forall (i : nat) a, seg !! i = Some a ->
        arg_stride a = if Nat.eqb i 0 then s else 1)
  /\ Forall (fun a =>
               arg_ratio a = t
               /\ arg_oup a =
                    _make_divisible (inject_Z c * width_mult)
                                    (if is_0_1 width_mult then 4 else 8)
                                    None) seg.

(** A block is the result of a constructor call. *)
Definition built_by (b : InvertedResidual) (a : block_args) : Prop :=
  InvertedResidual_init (arg_inp a) (arg_oup a) (arg_stride a) (arg_ratio a)
  = inr b.

(** A row with a positive expansion ratio: with the positive channel
    counts the rounding gives, the layers of its blocks have positive
    sizes. *)
Definition positive_ratio (r : row) : Prop :=
  let '(t, _, _, _) := r in 0 < t.

(** A row whose blocks the constructor accepts: it has no block at all, or
    its stride is one of the two the assertion admits. *)
Definition row_ok (r : row) : Prop :=
  let '(_, _, n, s) := r in n <= 0 \/ s = 1 \/ s = 2.

End Obs.

(** ** Closed forms of the assembler's loops *)

Module Closed.
Import Rounding Layers Block Assembler Obs.
Local Open Scope py_scope.

Definition mk_block (a : block_args) : InvertedResidual :=
  match InvertedResidual_init (arg_inp a) (arg_oup a) (arg_stride a) (arg_ratio a) with
  | inr b => b
  | inl _ => {| identity := false; Block.conv := [] |}
  end.

Definition call_event (a : block_args) : event :=
  BlockCall (arg_inp a) (arg_oup a) (arg_stride a) (arg_ratio a).

Definition rounded (width_mult : Q) (r : row) : Z :=
  let '(_, c, _, _) := r in
  _make_divisible (inject_Z c * width_mult)
                  (if is_0_1 width_mult then 4 else 8) None.

Definition round_event (width_mult : Q) (r : row) : event :=
  let '(_, c, _, _) := r in
  RoundCall (inject_Z c * width_mult) (if is_0_1 width_mult then 4 else 8).

Definition row_blocks (ic oc : Z) (r : row) : list block_args :=
  let '(t, _, n, s) := r in
  match Z.to_nat n with
  | O => []
  | S m => (ic, oc, s, t) :: repeat (oc, oc, 1, t) m
  end.

Definition row_next (ic oc : Z) (r : row) : Z :=
  let '(_, _, n, _) := r in
  match Z.to_nat n with
  | O => ic
  | S _ => oc
  end.

Fixpoint table_segments (width_mult : Q) (ic : Z) (tbl : list row)
  : list (list block_args) :=
  match tbl with
  | [] => []
  | r :: rest =>
      row_blocks ic (rounded width_mult r) r
      :: table_segments width_mult (row_next ic (rounded width_mult r) r) rest
  end.

Fixpoint table_out (width_mult : Q) (ic : Z) (tbl : list row) : Z :=
  match tbl with
  | [] => ic
  | r :: rest => table_out width_mult (row_next ic (rounded width_mult r) r) rest
  end.

Fixpoint table_trace (width_mult : Q) (ic : Z) (tbl : list row) : list event :=
  match tbl with
  | [] => []
  | r :: rest =>
      round_event width_mult r
      :: map call_event (row_blocks ic (rounded width_mult r) r)
      ++ table_trace width_mult (row_next ic (rounded width_mult r) r) rest
  end.

(** The body of the inner loop *)
Definition inner_body (oc s t : Z) (i : Z) (st : Z * list Child) : M (Z * list Child) :=
  let '(input_channel, layers) := st in
  b <- call_block input_channel oc (if i =? 0 then s else 1) t ;;
  ret (oc, layers ++ [IRBlock b]).

Definition stem_channels (wm : Q) : Z :=
  _make_divisible (32 * wm) (if is_0_1 wm then 4 else 8) None.

Definition last_channels (wm : Q) : Z :=
  if gt_1_0 wm
  then _make_divisible (1280 * wm) (if is_0_1 wm then 4 else 8) None
  else 1280.

Definition expected_net (tbl1 tbl2 : list row) (wm : Q) : MobileNetV2 :=
  let c0 := stem_channels wm in
  let c1 := table_out wm c0 tbl1 in
  let c2 := table_out wm c1 tbl2 in
  {| cfgs1 := tbl1;
     cfgs2 := tbl2;
     features :=
       Stem (conv_3x3_bn 3 c0 2)
       :: map (fun a => IRBlock (mk_block a)) (concat (table_segments wm c0 tbl1));
     features2 :=
       map (fun a => IRBlock (mk_block a)) (concat (table_segments wm c1 tbl2));
     Assembler.conv := conv_1x1_bn c2 (last_channels wm) |}.

Definition expected_trace (tbl1 tbl2 : list row) (wm : Q) : list event :=
  let c0 := stem_channels wm in
  let c1 := table_out wm c0 tbl1 in
  RoundCall (32 * wm) (if is_0_1 wm then 4 else 8)
  :: table_trace wm c0 tbl1
  ++ table_trace wm c1 tbl2
  ++ (if gt_1_0 wm
      then [RoundCall (1280 * wm) (if is_0_1 wm then 4 else 8)]
      else []).

End Closed.

(** ** Forward evaluation of the network *)

Module Network.
Import Layers Block Assembler.

Section NetForward.
Context {Tensor : Type}.
Variable tensor_add : Tensor -> Tensor -> Tensor.
Variable layer_forward : Layer -> Tensor -> Tensor.

(** The forward of one member of a stage. *)
Definition Child_forward (c : Child) (x : Tensor) : Tensor :=
  match c with
  | Stem m => Sequential_forward layer_forward m x
  | IRBlock b => snd (InvertedResidual_forward tensor_add layer_forward b x)
  end.

(** [nn.Sequential.forward] of a stage: its members in order. *)
Definition stage_forward (cs : list Child) (x : Tensor) : Tensor :=
  fold_left (fun acc c => Child_forward c acc) cs x.

(** [MobileNetV2.forward(self, x)], lines 139-146. *)
Definition MobileNetV2_forward (self : MobileNetV2) (x : Tensor)
  : Tensor * Tensor :=
  let x1 := stage_forward (features self) x in
  let x2 := stage_forward (features2 self) x1 in
  let x2 := Sequential_forward layer_forward (Assembler.conv self) x2 in
  (x1, x2).

End NetForward.

End Network.

(** ** The runtime's shape rules

    The tensor runtime is not part of the repository.  What follows is its
    documented shape discipline for the three primitives, on a batch of
    samples (batch, channels, height, width); [None] stands for the error
    the runtime raises on a mismatch.  The flag [training] is the mode of
    the network's modules: set after construction, cleared by [eval()].
    The rules instantiate the tensor parameters of the forward functions
    above. *)

Module Shapes.
Import Layers.

Record shape : Type := MkShape
  { batch : Z;
    channels : Z;
    height : Z;
    width : Z }.

(** Output extent of a convolution along one axis. *)
Definition conv_extent (n kernel stride padding : Z) : Z :=
  (n + 2 * padding - kernel) / stride + 1.

(** The check of a normalisation layer in training mode: the statistics of
    a channel need more than one value over the batch and the two spatial
    axes. *)
Definition _verify_batch_size (sh : shape) : bool :=
  negb (batch sh * height sh * width sh =? 1).

Definition layer_shape (training : bool) (l : Layer) (x : option shape)
  : option shape :=
  match x with
  | None => None
  | Some sh =>
      match l with
      | Conv2d cin cout k s p g _ =>
          if (channels sh =? cin) && (0 <? g)
             && (cin mod g =? 0) && (cout mod g =? 0)
             && (0 <? s)
             && (k <=? height sh + 2 * p) && (k <=? width sh + 2 * p)
          then Some {| batch := batch sh;
                       channels := cout;
                       height := conv_extent (height sh) k s p;
                       width := conv_extent (width sh) k s p |}
          else None
      | BatchNorm2d n =>
          if (channels sh =? n) && (negb training || _verify_batch_size sh)
          then Some sh else None
      | ReLU6 _ => Some sh
      end
  end.

(** Extent of the sum of two tensors along one axis, by the runtime's
    broadcasting: equal extents, or one of them 1. *)
Definition broadcast_dim (a b : Z) : option Z :=
  if a =? b then Some a
  else if a =? 1 then Some b
  else if b =? 1 then Some a
  else None.

(** Element-wise addition of two tensors. *)
Definition add_shape (x y : option shape) : option shape :=
  match x, y with
  | Some a, Some b =>
      match broadcast_dim (batch a) (batch b),
            broadcast_dim (channels a) (channels b),
            broadcast_dim (height a) (height b),
            broadcast_dim (width a) (width b) with
      | Some n, Some c, Some h, Some w =>
          Some {| batch := n; channels := c; height := h; width := w |}
      | _, _, _, _ => None
      end
  | _, _ => None
  end.

(** Extent after a 3x3 convolution of padding 1 and the given stride. *)
Definition down (stride n : Z) : Z := (n - 1) / stride + 1.

End Shapes.

(** ** Vocabulary of the shape statements *)

Module ShapeObs.
Import Layers Block Assembler Obs Network Shapes.

(** The forward of a block on shapes. *)
Definition block_shape (training : bool) (b : InvertedResidual)
  (x : option shape) : option shape :=
  snd (InvertedResidual_forward add_shape (layer_shape training) b x).

(** A normalisation layer in training mode is given one value per
    channel. *)
Definition one_value (training : bool) (n h w : Z) : bool :=
  training && (n * h * w =? 1).

(** A constructor call with positive channel counts and ratio and an
    accepted stride. *)
Definition call_ok (a : block_args) : Prop :=
  0 < arg_inp a /\ 0 < arg_oup a /\ 0 < arg_ratio a
  /\ (arg_stride a = 1 \/ arg_stride a = 2).

(** The output channels of the last of a list of calls. *)
Definition last_out (c : Z) (bs : list block_args) : Z :=
  fold_left (fun _ a => arg_oup a) bs c.

(** The extent left after the strides of a list of calls. *)
Definition strides_down (bs : list block_args) (n : Z) : Z :=
  fold_left (fun acc a => down (arg_stride a) acc) bs n.

End ShapeObs.

(** ** Vocabulary of the loader statements *)

Module LoaderObs.
Import PyStr Loader.

Local Open Scope string_scope.

(** [old in s] *)
Fixpoint contains (old s : string) : bool :=
  String.prefix old s
  || match s with
     | EmptyString => false
     | String _ s' => contains old s'
     end.

(** The prefix of the parameter names of the child of index [i] of the
    sequence held in the attribute [stage]. *)
Definition child_prefix (stage : string) (i : nat) : string :=
  stage +:+ "." +:+ pretty i +:+ ".".

Section Loaded.
Context {Tensor : Type}.

(** The tensor the remapping leaves under an internal name that held [v]:
    that of the last item of the checkpoint whose stripped name is the
    remapped internal name, [v] itself when there is none. *)
Definition loaded_value (checkpoint : list (string * Tensor)) (k2 : string)
  (v : Tensor) : Tensor :=
  fold_left
    (fun acc item =>
       if String.eqb (strip_module (fst item)) (remap_name k2)
       then snd item else acc)
    checkpoint v.

(** An item of the checkpoint that some internal name takes. *)
Definition taken_by (d : gmap string Tensor) (item : string * Tensor) : Prop :=
  exists k2, is_Some (d !! k2) /\ strip_module (fst item) = remap_name k2.

End Loaded.

End LoaderObs.

(** ** Weight initialisation *)

Module Initializer.
Import Layers Block Assembler.

Local Open Scope string_scope.
Local Open Scope Z_scope.

(** The two arithmetic exceptions the expression [math.sqrt(2. / n)] can
    raise. *)
Inductive arith_error : Type :=
| ZeroDivisionError
| ValueError.

(** How a parameter tensor is filled: [normal_(mean, math.sqrt(variance))],
    or a constant ([fill_(c)], [zero_()]). *)
Inductive filling : Type :=
| Normal (mean variance : Q)
| Fill (c : Q).

(** The body of the loop of lines 149-160 for one module [m]: the
    parameters of [m] it fills, by attribute name.  The file builds no
    [nn.Linear]. *)
Definition initialize_module (m : Layer)
  : arith_error + list (string * filling) :=
  match m with
  | Conv2d _ out_channels kernel_size _ _ _ bias =>
      let n := kernel_size * kernel_size * out_channels in
      if n =? 0 then inl ZeroDivisionError
      else if n <? 0 then inl ValueError
      else inr (("weight", Normal 0 (2 / inject_Z n))
                :: (if bias then [("bias", Fill 0)] else []))
  | BatchNorm2d _ => inr [("weight", Fill 1); ("bias", Fill 0)]
  | ReLU6 _ => inr []
  end.

(** The primitive modules below a member of a stage. *)
Definition leaves (c : Child) : list Layer :=
  match c with
  | Stem m => m
  | IRBlock b => Block.conv b
  end.

(** [self.modules()] without the containers, which the loop passes over:
    the primitive modules in registration order. *)
Definition modules (self : MobileNetV2) : list Layer :=
  flat_map leaves (features self)
  ++ flat_map leaves (features2 self)
  ++ Assembler.conv self.

Fixpoint for_modules (ms : list Layer)
  : arith_error + list (Layer * list (string * filling)) :=
  match ms with
  | [] => inr []
  | m :: rest =>
      match initialize_module m with
      | inl e => inl e
      | inr fs =>
          match for_modules rest with
          | inl e => inl e
          | inr done => inr ((m, fs) :: done)
          end
      end
  end.

(** [MobileNetV2._initialize_weights(self)], lines 148-160. *)
Definition _initialize_weights (self : MobileNetV2)
  : arith_error + list (Layer * list (string * filling)) :=
  for_modules (modules self).

(** A primitive module the loop handles without an arithmetic error, and
    whose convolution carries no bias. *)
Definition layer_ok (m : Layer) : Prop :=
  match m with
  | Conv2d _ o k _ _ _ bias => 0 < k * k * o /\ bias = false
  | _ => True
  end.

(** What the loop does to a module of the network. *)
Definition fillings (m : Layer) : list (string * filling) :=
  match m with
  | Conv2d _ o k _ _ _ _ => [("weight", Normal 0 (2 / inject_Z (k * k * o)))]
  | BatchNorm2d _ => [("weight", Fill 1); ("bias", Fill 0)]
  | ReLU6 _ => []
  end.

End Initializer.

(** ** Vocabulary of the assembly statements on arbitrary tables *)

Module TableObs.
Import Layers Block Assembler Obs.

(** The repeat count of a row, no block for a count below zero. *)
Definition row_repeat (r : row) : nat :=
  let '(_, _, n, _) := r in Z.to_nat n.

Definition blocks_asked (tbl : list row) : nat :=
  fold_right (fun r acc => (row_repeat r + acc)%nat) 0%nat tbl.

(** The identity flags of the blocks of a stage, in order. *)
Definition identity_flags (cs : list Child) : list bool :=
  map identity (blocks_of cs).

(** A channel count that is a positive multiple of [d]. *)
Definition multiple_of (d : Z) (c : option Z) : Prop :=
  exists k, 0 < k /\ c = Some (k * d).

(** One channel-count sequence is nowhere above another. *)
Definition channels_le (a b : option Z) : Prop :=
  match a, b with
  | Some x, Some y => x <= y
  | _, _ => False
  end.

End TableObs.

(** * Proofs *)

Import Rounding Layers Block Assembler Obs Closed PyStr Loader.
Local Open Scope py_scope.

(** ** Channel rounding *)

Lemma py_int_floor (x : Q) : (0 <= x)%Q -> py_int x = Qfloor x.
Proof.
  destruct x as [n d]. unfold py_int, Qfloor, Qle. simpl. intros H.
  apply Z.quot_div_nonneg; lia.
Qed.

Lemma round_down_bounds (w d : Z) :
  0 < d -> w - d < w / d * d <= w.
Proof.
  intros Hd. pose proof (Z.div_mod w d ltac:(lia)) as E.
  pose proof (Z.mod_pos_bound w d Hd). lia.
Qed.

(** In exact arithmetic the guard keeps the result at nine tenths of the
    target or above. *)
Lemma make_divisible_sound (v : Q) (d : Z) :
  (0 < v)%Q -> 0 < d ->
  0 < _make_divisible v d None
  /\ (d | _make_divisible v d None)
  /\ ((9 # 10) * v <= inject_Z (_make_divisible v d None))%Q.
Proof.
  intros Hv Hd. unfold _make_divisible.
  set (w := py_int (v + inject_Z d / 2)%Q).
  set (new_v := Z.max d (w / d * d)).
  assert (Hdq : (0 < inject_Z d)%Q) by (unfold Qlt; simpl; lia).
  assert (Hw : w = Qfloor (v + inject_Z d / 2)%Q).
  { apply py_int_floor. 
    assert (0 <= inject_Z d / 2)%Q by (apply Qle_shift_div_l; lra). lra. }
  assert (Hdiv : (d | new_v)).
  { unfold new_v. destruct (Z.max_spec d (w / d * d)) as [[_ ->] | [_ ->]].
    - apply Z.divide_factor_r.
    - apply Z.divide_refl. }
  assert (Hpos : d <= new_v) by (unfold new_v; lia).
  destruct (Qlt_le_dec (inject_Z new_v) ((9 # 10) * v)) as [Hlt | Hge].
  - split; [lia|]. split; [apply Z.divide_add_r; [exact Hdiv | apply Z.divide_refl]|].
    pose proof (round_down_bounds w d Hd) as [Hlo _].
    assert (Hl2 : w + 1 <= new_v + d) by (unfold new_v; lia).
    pose proof (Qlt_floor (v + inject_Z d / 2)%Q) as Hfl. rewrite <- Hw in Hfl.
    rewrite inject_Z_plus in Hfl. 
    rewrite Zle_Qle in Hl2. rewrite !inject_Z_plus in Hl2.
    rewrite inject_Z_plus.
    change (inject_Z 1) with 1%Q in *.
    assert (E : (inject_Z d / 2 == inject_Z d * (1#2))%Q) by (field).
    rewrite E in Hfl. lra.
  - split; [lia|]. split; [exact Hdiv | exact Hge].
Qed.

(** ** The assembler's loops *)

Lemma init_ok inp oup stride t :
  stride = 1 \/ stride = 2 ->
  InvertedResidual_init inp oup stride t = inr (mk_block (inp, oup, stride, t)).
Proof.
  intros H. unfold mk_block; simpl.
  unfold InvertedResidual_init.
  assert (E : in_1_2 stride = true) by (destruct H; subst; reflexivity).
  rewrite E. reflexivity.
Qed.

Lemma init_bad inp oup stride t :
  stride <> 1 -> stride <> 2 ->
  InvertedResidual_init inp oup stride t = inl AssertionError.
Proof.
  intros H1 H2. unfold InvertedResidual_init, in_1_2. simpl.
  destruct (Z.eqb_spec stride 1); [contradiction|].
  destruct (Z.eqb_spec stride 2); [contradiction|]. reflexivity.
Qed.

Lemma call_block_ok inp oup stride t :
  stride = 1 \/ stride = 2 ->
  call_block inp oup stride t
  = inr (mk_block (inp, oup, stride, t), [BlockCall inp oup stride t]).
Proof.
  intros H. unfold call_block. simpl. rewrite (init_ok _ _ _ _ H). reflexivity.
Qed.

Lemma call_block_bad inp oup stride t :
  stride <> 1 -> stride <> 2 ->
  call_block inp oup stride t = inl AssertionError.
Proof.
  intros H1 H2. unfold call_block. simpl. rewrite (init_bad _ _ _ _ H1 H2). reflexivity.
Qed.

Lemma inner_tail (oc s t : Z) (m : nat) :
  forall (k : nat) layers, (1 <= k)%nat ->
  for_each (map Z.of_nat (seq k m)) (inner_body oc s t) (oc, layers)
  = inr ((oc, layers ++ map (fun a => IRBlock (mk_block a)) (repeat (oc, oc, 1, t) m)),
         map call_event (repeat (oc, oc, 1, t) m)).
Proof.
  induction m as [|m IH]; intros k layers Hk.
  - simpl. rewrite app_nil_r. reflexivity.
  - cbn [seq map for_each].
    assert (E : (Z.of_nat k =? 0) = false) by (apply Z.eqb_neq; lia).
    unfold inner_body at 1. rewrite E.
    rewrite (call_block_ok oc oc 1 t (or_introl eq_refl)). 
    cbn [bind ret]. rewrite (IH (S k) _ ltac:(lia)).
    cbn [repeat map]. rewrite <- app_assoc. reflexivity.
Qed.

Lemma inner_ok (ic oc : Z) (r : row) layers :
  row_ok r ->
  let '(t, c, n, s) := r in
  for_each (range n) (inner_body oc s t) (ic, layers)
  = inr ((row_next ic oc r, layers ++ map (fun a => IRBlock (mk_block a)) (row_blocks ic oc r)),
         map call_event (row_blocks ic oc r)).
Proof.
  destruct r as [[[t c] n] s]. intros Hok. unfold range, row_blocks, row_next.
  destruct (Z.to_nat n) as [|m] eqn:En.
  - simpl. rewrite app_nil_r. reflexivity.
  - assert (Hs : s = 1 \/ s = 2) by (destruct Hok as [H|H]; [lia | exact H]).
    cbn [seq map for_each]. unfold inner_body at 1. change (if Z.of_nat 0 =? 0 then s else 1) with s.
    rewrite (call_block_ok ic oc s t Hs). cbn [bind ret].
    rewrite (inner_tail oc s t m 1%nat _ (le_n 1)).
    rewrite <- app_assoc. reflexivity.
Qed.

Lemma inner_bad (ic oc : Z) (t n s : Z) layers :
  0 < n -> s <> 1 -> s <> 2 ->
  for_each (range n) (inner_body oc s t) (ic, layers) = inl AssertionError.
Proof.
  intros Hn H1 H2. unfold range.
  destruct (Z.to_nat n) as [|m] eqn:En; [lia|].
  cbn [seq map for_each]. unfold inner_body at 1. change (if Z.of_nat 0 =? 0 then s else 1) with s.
  rewrite (call_block_bad ic oc s t H1 H2). reflexivity.
Qed.

Lemma build_rows_cons wm r rest ic layers :
  build_rows wm (r :: rest) (ic, layers)
  = bind (let '(t, c, n, s) := r in
          bind (call_make_divisible (inject_Z c * wm) (if is_0_1 wm then 4 else 8))
               (fun oc => for_each (range n) (inner_body oc s t) (ic, layers)))
         (fun st => build_rows wm rest st).
Proof. destruct r as [[[t c] n] s]. reflexivity. Qed.

Lemma build_rows_ok wm tbl :
  Forall row_ok tbl -> forall ic layers,
  build_rows wm tbl (ic, layers)
  = inr ((table_out wm ic tbl,
          layers ++ map (fun a => IRBlock (mk_block a)) (concat (table_segments wm ic tbl))),
         table_trace wm ic tbl).
Proof.
  induction 1 as [|r rest Hr Hrest IH]; intros ic layers.
  - simpl. rewrite app_nil_r. reflexivity.
  - rewrite build_rows_cons.
    pose proof (inner_ok ic (rounded wm r) r layers Hr) as Hin.
    destruct r as [[[t c] n] s].
    unfold call_make_divisible. cbn [tell bind ret].
    change (_make_divisible (inject_Z c * wm) (if is_0_1 wm then 4 else 8) None)
      with (rounded wm (t, c, n, s)).
    rewrite Hin. cbn [bind]. rewrite IH.
    cbn [table_out table_segments table_trace concat round_event].
    rewrite map_app, app_assoc. reflexivity.
Qed.

Lemma build_rows_bad wm tbl :
  Exists (fun r => ~ row_ok r) tbl -> forall ic layers,
  build_rows wm tbl (ic, layers) = inl AssertionError.
Proof.
  induction tbl as [|r rest IH]; intros Hex ic layers.
  - inversion Hex.
  - rewrite build_rows_cons.
    assert (Hdec : row_ok r \/ ~ row_ok r).
    { destruct r as [[[t c] n] s]. unfold row_ok. lia. }
    destruct Hdec as [Hok | Hbad].
    + pose proof (inner_ok ic (rounded wm r) r layers Hok) as Hin.
      destruct r as [[[t c] n] s].
      unfold call_make_divisible. cbn [tell bind ret].
      change (_make_divisible (inject_Z c * wm) (if is_0_1 wm then 4 else 8) None)
        with (rounded wm (t, c, n, s)).
      rewrite Hin. cbn [bind]. rewrite IH; [reflexivity|].
      inversion Hex; subst; [contradiction | assumption].
    + destruct r as [[[t c] n] s]. unfold row_ok in Hbad.
      unfold call_make_divisible. cbn [tell bind ret].
      rewrite inner_bad by lia. reflexivity.
Qed.

Lemma assemble_ok tbl1 tbl2 wm :
  Forall row_ok tbl1 -> Forall row_ok tbl2 ->
  assemble tbl1 tbl2 wm = inr (expected_net tbl1 tbl2 wm, expected_trace tbl1 tbl2 wm).
Proof.
  intros H1 H2. unfold assemble, call_make_divisible.
  cbn [tell bind ret].
  fold (stem_channels wm).
  rewrite (build_rows_ok wm tbl1 H1). cbn [bind].
  rewrite (build_rows_ok wm tbl2 H2). cbn [bind].
  unfold expected_net, expected_trace, last_channels.
  destruct (gt_1_0 wm); cbn [tell bind ret app]; rewrite ?app_nil_r; reflexivity.
Qed.

Lemma assemble_bad tbl1 tbl2 wm :
  Exists (fun r => ~ row_ok r) (tbl1 ++ tbl2) ->
  assemble tbl1 tbl2 wm = inl AssertionError.
Proof.
  intros Hex. unfold assemble, call_make_divisible.
  cbn [tell bind ret].
  assert (Hdec : Forall row_ok tbl1 \/ Exists (fun r => ~ row_ok r) tbl1).
  { clear. induction tbl1 as [|r rest IH]; [left; constructor|].
    destruct IH as [IH|IH]; [|right; constructor 2; exact IH].
    assert (Hd : row_ok r \/ ~ row_ok r)
      by (destruct r as [[[t c] n] s]; unfold row_ok; lia).
    destruct Hd; [left; constructor; assumption | right; constructor 1; assumption]. }
  destruct Hdec as [Hok | Hbad].
  - rewrite (build_rows_ok wm tbl1 Hok). cbn [bind].
    apply Exists_app in Hex. destruct Hex as [Hex | Hex].
    + exfalso. rewrite Forall_forall in Hok. apply Exists_exists in Hex.
      destruct Hex as [r [Hin Hr]]. exact (Hr (Hok r Hin)).
    + rewrite (build_rows_bad wm tbl2 Hex). reflexivity.
  - rewrite (build_rows_bad wm tbl1 Hbad). reflexivity.
Qed.

Lemma table1_ok : Forall row_ok table1.
Proof. repeat constructor; unfold row_ok; lia. Qed.

Lemma table2_ok : Forall row_ok table2.
Proof. repeat constructor; unfold row_ok; lia. Qed.

Lemma MobileNetV2_init_eq wm :
  MobileNetV2_init wm
  = inr (expected_net table1 table2 wm, expected_trace table1 table2 wm).
Proof. apply assemble_ok; [exact table1_ok | exact table2_ok]. Qed.

Lemma block_calls_app tr1 tr2 :
  block_calls (tr1 ++ tr2) = block_calls tr1 ++ block_calls tr2.
Proof. unfold block_calls. apply flat_map_app. Qed.

Lemma block_calls_events bs : block_calls (map call_event bs) = bs.
Proof.
  induction bs as [|[[[i o] s] t] bs IH]; [reflexivity|].
  simpl. f_equal. exact IH.
Qed.

Lemma block_calls_table wm tbl : forall ic,
  block_calls (table_trace wm ic tbl) = concat (table_segments wm ic tbl).
Proof.
  induction tbl as [|r rest IH]; intros ic; [reflexivity|].
  cbn [table_trace table_segments concat].
  destruct r as [[[t c] n] s]. cbn [round_event].
  change (block_calls (?e :: ?l)) with (block_calls [e] ++ block_calls l).
  rewrite block_calls_app, block_calls_events, IH. reflexivity.
Qed.

(** ** The remapping loops *)

Section LoaderFacts.
Context {Tensor : Type}.
Implicit Types (d : gmap string Tensor) (ckpt : list (string * Tensor)).

Lemma inner_loop_lookup n1 (v1 : Tensor) d k :
  inner_loop n1 v1 d !! k
  = match d !! k with
    | Some v => Some (if String.eqb n1 (remap_name k) then v1 else v)
    | None => None
    end.
Proof.
  unfold inner_loop.
  set (f := fun (k2 : string) (_ : Tensor) (acc : gmap string Tensor) =>
              if String.eqb n1 (remap_name k2) then <[k2:=v1]> acc else acc).
  assert (H : forall m : gmap string Tensor,
             forall j, map_fold f d m !! j
                       = match m !! j with
                         | Some _ =>
                             if String.eqb n1 (remap_name j) then Some v1 else d !! j
                         | None => d !! j
                         end).
  { apply (map_fold_weak_ind
             (fun acc (m : gmap string Tensor) =>
                forall j, acc !! j
                          = match m !! j with
                            | Some _ =>
                                if String.eqb n1 (remap_name j) then Some v1 else d !! j
                            | None => d !! j
                            end)).
    - intros j. rewrite lookup_empty. reflexivity.
    - intros i x m r Hi IH j. unfold f.
      destruct (decide (i = j)) as [-> | Hne].
      + rewrite lookup_insert_eq.
        destruct (String.eqb n1 (remap_name j)).
        * apply lookup_insert_eq.
        * rewrite IH, Hi. reflexivity.
      + rewrite (lookup_insert_ne m i j x Hne).
        destruct (String.eqb n1 (remap_name i)).
        * rewrite lookup_insert_ne by exact Hne. apply IH.
        * apply IH. }
  rewrite (H d k). destruct (d !! k) as [v|]; [|reflexivity].
  destruct (String.eqb n1 (remap_name k)); reflexivity.
Qed.

Lemma remap_loop_snoc ckpt it d :
  remap_loop (ckpt ++ [it]) d
  = inner_loop (strip_module (fst it)) (snd it) (remap_loop ckpt d).
Proof. unfold remap_loop. rewrite fold_left_app. reflexivity. Qed.

Lemma remap_loop_app ckpt1 ckpt2 d :
  remap_loop (ckpt1 ++ ckpt2) d = remap_loop ckpt2 (remap_loop ckpt1 d).
Proof. unfold remap_loop. apply fold_left_app. Qed.

Lemma remap_loop_is_Some ckpt : forall d k,
  is_Some (remap_loop ckpt d !! k) <-> is_Some (d !! k).
Proof.
  induction ckpt as [|it ckpt IH]; intros d k; [reflexivity|].
  change (remap_loop (it :: ckpt) d)
    with (remap_loop ckpt (inner_loop (strip_module (fst it)) (snd it) d)).
  rewrite IH, inner_loop_lookup.
  destruct (d !! k); split; intros [x Hx]; try discriminate; eauto.
Qed.

Lemma remap_loop_dom ckpt d : dom (remap_loop ckpt d) = dom d.
Proof.
  apply set_eq. intros k. rewrite !elem_of_dom. apply remap_loop_is_Some.
Qed.

Lemma remap_loop_no_match ckpt : forall d k,
  Forall (fun it => strip_module (fst it) <> remap_name k) ckpt ->
  remap_loop ckpt d !! k = d !! k.
Proof.
  induction ckpt as [|it ckpt IH]; intros d k Hall; [reflexivity|].
  change (remap_loop (it :: ckpt) d)
    with (remap_loop ckpt (inner_loop (strip_module (fst it)) (snd it) d)).
  inversion Hall as [|? ? Hit Hrest]; subst.
  rewrite (IH _ _ Hrest), inner_loop_lookup.
  destruct (d !! k); [|reflexivity].
  destruct (String.eqb_spec (strip_module (fst it)) (remap_name k)); [contradiction|reflexivity].
Qed.

Lemma remap_loop_last_match pre k1 (v1 : Tensor) post d k v :
  d !! k = Some v ->
  strip_module k1 = remap_name k ->
  Forall (fun it => strip_module (fst it) <> remap_name k) post ->
  remap_loop (pre ++ (k1, v1) :: post) d !! k = Some v1.
Proof.
  intros Hk Hm Hpost.
  rewrite remap_loop_app.
  change (remap_loop ((k1, v1) :: post) (remap_loop pre d))
    with (remap_loop post (inner_loop (strip_module k1) v1 (remap_loop pre d))).
  rewrite (remap_loop_no_match post _ _ Hpost), inner_loop_lookup.
  destruct (proj2 (remap_loop_is_Some pre d k) (ex_intro _ v Hk)) as [v' ->].
  rewrite Hm, String.eqb_refl. reflexivity.
Qed.

End LoaderFacts.

(** * The claims *)

(** ** Channel rounding *)

Example make_divisible_32_8 : _make_divisible 32 8 None = 32.
Proof. reflexivity. Qed.

Example make_divisible_1_8 : _make_divisible 1 8 None = 8.
Proof. reflexivity. Qed.

Example make_divisible_tenth_of_32 : _make_divisible (32 * (1 # 10)) 4 None = 4.
Proof. reflexivity. Qed.

(** C1, at an input where the code departs from it.  At the double
    8.88888888888889 and divisor 8 the code returns 8: the product
    [0.9 * v] is rounded to the double 8.0, so the guard [new_v < 0.9 * v]
    of line 35 does not fire and the bump of line 36 is skipped.  The
    target is positive and 8 is a positive multiple of the divisor, but 8
    is below nine tenths of the target.  In exact arithmetic the guard
    fires and the result is 16. *)
Theorem C1_guard_misses_by_rounding :
  Float64._make_divisible
    (Float64.Float Float64.double_8_88888888888889) 8 None = inr 8
  /\ SFmul Float64.prec Float64.emax Float64.literal_0_9
           Float64.double_8_88888888888889
     = S754_finite false 4503599627370496 (-49)
  /\ (Float64.to_Q (S754_finite false 4503599627370496 (-49)) == 8)%Q
  /\ (0 < Float64.to_Q Float64.double_8_88888888888889)%Q
  /\ (inject_Z 8
      < (9 # 10) * Float64.to_Q Float64.double_8_88888888888889)%Q
  /\ _make_divisible (Float64.to_Q Float64.double_8_88888888888889) 8 None
     = 16.
Proof. repeat split; vm_compute; reflexivity. Qed.

(** ** The inverted residual block *)

(** C2.  A block that [InvertedResidual(inp, oup, stride, t)] constructs
    has its identity flag set exactly when [stride == 1] and [inp == oup];
    [forward] leaves the block as it was and returns the input plus the
    transformed input when the flag is set, the transformed input alone
    otherwise. *)
Theorem C2_identity_flag {Tensor : Type}
  (tensor_add : Tensor -> Tensor -> Tensor)
  (layer_forward : Layer -> Tensor -> Tensor)
  (inp oup stride t : Z) (blk : InvertedResidual) :
  InvertedResidual_init inp oup stride t = inr blk ->
  (identity blk = true <-> stride = 1 /\ inp = oup)
  /\ forall x : Tensor,
       fst (InvertedResidual_forward tensor_add layer_forward blk x) = blk
       /\ (identity blk = true ->
           snd (InvertedResidual_forward tensor_add layer_forward blk x)
           = tensor_add x (Sequential_forward layer_forward (Block.conv blk) x))
       /\ (identity blk = false ->
           snd (InvertedResidual_forward tensor_add layer_forward blk x)
           = Sequential_forward layer_forward (Block.conv blk) x).
Proof.
  intros Hinit. unfold InvertedResidual_init in Hinit.
  destruct (negb (in_1_2 stride)); [discriminate|].
  injection Hinit as <-. cbn [identity Block.conv].
  split.
  - rewrite andb_true_iff, !Z.eqb_eq. reflexivity.
  - intros x. unfold InvertedResidual_forward. cbn [identity Block.conv].
    destruct ((stride =? 1) && (inp =? oup)); cbn [fst snd];
      repeat split; intros; try reflexivity; discriminate.
Qed.

Lemma C2_identity_flag_witness :
  InvertedResidual_init 32 32 1 6
  = inr (mk_block (32, 32, 1, 6))
  /\ (identity (mk_block (32, 32, 1, 6)) = true <-> 1 = 1 /\ 32 = 32)
  /\ forall x : Z,
       fst (InvertedResidual_forward Z.add (fun _ y => y) (mk_block (32, 32, 1, 6)) x)
       = mk_block (32, 32, 1, 6)
       /\ (identity (mk_block (32, 32, 1, 6)) = true ->
           snd (InvertedResidual_forward Z.add (fun _ y => y) (mk_block (32, 32, 1, 6)) x)
           = x + Sequential_forward (fun _ y => y) (Block.conv (mk_block (32, 32, 1, 6))) x)
       /\ (identity (mk_block (32, 32, 1, 6)) = false ->
           snd (InvertedResidual_forward Z.add (fun _ y => y) (mk_block (32, 32, 1, 6)) x)
           = Sequential_forward (fun _ y => y) (Block.conv (mk_block (32, 32, 1, 6))) x).
Proof.
  split; [reflexivity|].
  apply (C2_identity_flag Z.add (fun _ y => y) 32 32 1 6). reflexivity.
Defined.

(** ** The network assembler *)

Lemma is_0_1_spec (wm : Q) : is_0_1 wm = true <-> (wm == 1 # 10)%Q.
Proof. unfold is_0_1. apply Qeq_bool_iff. Qed.

Lemma gt_1_0_spec (wm : Q) : gt_1_0 wm = true <-> (1 < wm)%Q.
Proof.
  unfold gt_1_0. destruct (Qlt_le_dec 1 wm) as [H | H].
  - split; [intros _; exact H | reflexivity].
  - split; [discriminate | intros H'; exfalso; lra].
Qed.

Lemma round_calls_app tr1 tr2 :
  round_calls (tr1 ++ tr2) = round_calls tr1 ++ round_calls tr2.
Proof. unfold round_calls. apply flat_map_app. Qed.

Lemma round_calls_events bs : round_calls (map call_event bs) = [].
Proof. induction bs as [|a bs IH]; [reflexivity | exact IH]. Qed.

Lemma round_calls_table wm tbl : forall ic,
  round_calls (table_trace wm ic tbl)
  = map (fun r : row =>
           let '(_, c, _, _) := r in
           ((inject_Z c * wm)%Q, if is_0_1 wm then 4 else 8)) tbl.
Proof.
  induction tbl as [|r rest IH]; intros ic; [reflexivity|].
  cbn [table_trace map]. destruct r as [[[t c] n] s]. cbn [round_event].
  change (round_calls (?e :: ?l)) with (round_calls [e] ++ round_calls l).
  rewrite round_calls_app, round_calls_events, IH. reflexivity.
Qed.

(** C5.  The final projection has [_make_divisible(1280 * width_mult, 8)]
    output channels when [width_mult > 1.0], and 1280 otherwise. *)
Theorem C5_final_projection (wm : Q) :
  exists net tr,
    MobileNetV2_init wm = inr (net, tr)
    /\ ((1 < wm)%Q ->
        out_channels_of (Assembler.conv net)
        = Some (_make_divisible (1280 * wm) 8 None))
    /\ ((wm <= 1)%Q -> out_channels_of (Assembler.conv net) = Some 1280).
Proof.
  exists (expected_net table1 table2 wm), (expected_trace table1 table2 wm).
  split; [apply MobileNetV2_init_eq|].
  unfold expected_net, last_channels. cbn [Assembler.conv conv_1x1_bn out_channels_of fold_left].
  split.
  - intros Hgt. rewrite (proj2 (gt_1_0_spec wm) Hgt).
    destruct (is_0_1 wm) eqn:E; [|reflexivity].
    apply is_0_1_spec in E. exfalso. rewrite E in Hgt. discriminate.
  - intros Hle. destruct (gt_1_0 wm) eqn:E; [|reflexivity].
    apply gt_1_0_spec in E. exfalso. lra.
Qed.

Lemma C5_final_projection_witness :
  (1 < 2)%Q
  /\ exists net tr,
       MobileNetV2_init 2 = inr (net, tr)
       /\ out_channels_of (Assembler.conv net) = Some 2560.
Proof.
  split; [reflexivity|].
  destruct (C5_final_projection 2) as (net & tr & Hrun & Hgt & _).
  exists net, tr. split; [exact Hrun|]. rewrite Hgt; reflexivity.
Defined.

Ltac segs_compute :=
  cbv [table_segments row_blocks row_next table_out Z.to_nat Pos.to_nat
       Pos.iter_op Nat.add repeat concat app expected_net features features2
       blocks_of flat_map map chained arg_inp arg_oup].

Ltac stride_cases :=
  intros i a Hi;
  repeat (destruct i as [|i]; cbn in Hi;
          [ injection Hi as <-; reflexivity | ]);
  discriminate.

Ltac segment_facts :=
  repeat (apply List.Forall2_cons;
          [ unfold row_segment; cbn [length];
            split; [reflexivity|];
            split; [stride_cases | repeat constructor]
          | ]);
  apply List.Forall2_nil.

(** C6.  For every row [(t, c, n, s)] of the two tables the constructor
    calls the block constructor exactly [n] times, the first time with
    stride [s] and afterwards with stride 1, always with expansion ratio
    [t] and the row's rounded output channels; over the whole run every
    call's input channels are the output channels of the call before it,
    the first taking those of the stem; the blocks of the two stages are
    the results of these calls. *)
Theorem C6_rows_instantiated (wm : Q) :
  exists net tr segs1 segs2 stem c0,
    MobileNetV2_init wm = inr (net, tr)
    /\ block_calls tr = concat (segs1 ++ segs2)
    /\ Forall2 (row_segment wm) table1 segs1
    /\ Forall2 (row_segment wm) table2 segs2
    /\ features net = Stem stem :: map IRBlock (blocks_of (features net))
    /\ out_channels_of stem = Some c0
    /\ chained c0 (concat (segs1 ++ segs2))
    /\ Forall2 built_by (blocks_of (features net)) (concat segs1)
    /\ Forall2 built_by (blocks_of (features2 net)) (concat segs2)
    /\ features2 net = map IRBlock (blocks_of (features2 net)).
Proof.
  exists (expected_net table1 table2 wm), (expected_trace table1 table2 wm).
  exists (table_segments wm (stem_channels wm) table1).
  exists (table_segments wm (table_out wm (stem_channels wm) table1) table2).
  exists (conv_3x3_bn 3 (stem_channels wm) 2), (stem_channels wm).
  split; [apply MobileNetV2_init_eq|].
  split.
  { unfold expected_trace.
    change (block_calls (?e :: ?l)) with (block_calls [e] ++ block_calls l).
    rewrite !block_calls_app, !block_calls_table, concat_app.
    destruct (gt_1_0 wm); cbn [block_calls flat_map app]; rewrite app_nil_r; reflexivity. }
  split; [unfold table1, table2; segs_compute; segment_facts|].
  split; [unfold table1, table2; segs_compute; segment_facts|].
  split; [reflexivity|].
  split; [reflexivity|].
  split; [unfold table1, table2; segs_compute; repeat split|].
  split; [unfold table1, table2; segs_compute; repeat constructor|].
  split; [unfold table1, table2; segs_compute; repeat constructor|].
  reflexivity.
Qed.

(** C7.  The rounding calls of the constructor are, in order, the stem's,
    one per row of the two tables and, when [width_mult > 1.0] only, the
    final projection's.  When [width_mult == 0.1] every one of them has
    divisor 4 (and the projection's is not among them); for every other
    width multiplier every one of them has divisor 8. *)
Theorem C7_divisor_switch (wm : Q) :
  exists net tr,
    MobileNetV2_init wm = inr (net, tr)
    /\ map fst (round_calls tr)
       = [(32 * wm)%Q]
         ++ map (fun r : row => let '(_, c, _, _) := r in (inject_Z c * wm)%Q)
                (table1 ++ table2)
         ++ (if gt_1_0 wm then [(1280 * wm)%Q] else [])
    /\ ((wm == 1 # 10)%Q ->
        Forall (fun call => snd call = 4) (round_calls tr)
        /\ gt_1_0 wm = false)
    /\ (~ (wm == 1 # 10)%Q ->
        Forall (fun call => snd call = 8) (round_calls tr)).
Proof.
  exists (expected_net table1 table2 wm), (expected_trace table1 table2 wm).
  split; [apply MobileNetV2_init_eq|].
  assert (Hcalls :
            round_calls (expected_trace table1 table2 wm)
            = map (fun v => (v, if is_0_1 wm then 4 else 8))
                  ([(32 * wm)%Q]
                   ++ map (fun r : row =>
                             let '(_, c, _, _) := r in (inject_Z c * wm)%Q)
                          (table1 ++ table2)
                   ++ (if gt_1_0 wm then [(1280 * wm)%Q] else []))).
  { unfold expected_trace.
    change (round_calls (?e :: ?l)) with (round_calls [e] ++ round_calls l).
    rewrite !round_calls_app, !round_calls_table.
    destruct (gt_1_0 wm); reflexivity. }
  rewrite Hcalls. split.
  { rewrite map_map. cbn [fst]. apply map_id. }
  split.
  - intros Heq. rewrite (proj2 (is_0_1_spec wm) Heq). split.
    + apply List.Forall_forall. intros call Hin. apply in_map_iff in Hin.
      destruct Hin as (v & <- & _). reflexivity.
    + destruct (gt_1_0 wm) eqn:E; [|reflexivity].
      apply gt_1_0_spec in E. rewrite Heq in E. discriminate.
  - intros Hne. destruct (is_0_1 wm) eqn:E.
    + apply is_0_1_spec in E. contradiction.
    + apply List.Forall_forall. intros call Hin. apply in_map_iff in Hin.
      destruct Hin as (v & <- & _). reflexivity.
Qed.

Lemma C7_divisor_switch_witness :
  (1 # 10 == 1 # 10)%Q
  /\ exists net tr,
       MobileNetV2_init (1 # 10) = inr (net, tr)
       /\ Forall (fun call => snd call = 4) (round_calls tr)
       /\ length (round_calls tr) = 8%nat.
Proof.
  split; [reflexivity|].
  destruct (C7_divisor_switch (1 # 10)) as (net & tr & Hrun & Htargets & H4 & _).
  exists net, tr. split; [exact Hrun|]. split.
  - apply H4. reflexivity.
  - rewrite <- (length_map fst), Htargets. reflexivity.
Defined.

(** C8.  A stride other than 1 or 2 makes the block constructor raise the
    assertion error, whatever its other arguments, and a table with a row
    of at least one block of such a stride never yields a network: the
    assembly is aborted, by that assertion error when the rows have
    positive expansion ratios.  With stride 1 or 2 the constructor does
    not raise the assertion error, and with positive channel counts and
    ratio it returns a block; the assembly over the file's own tables
    returns a network for every width multiplier. *)
Theorem C8_stride_assertion (inp oup stride t : Z) :
  (stride <> 1 /\ stride <> 2 ->
   InvertedResidual_init inp oup stride t = inl AssertionError
   /\ forall (tbl1 tbl2 : list row) (wm : Q) (c n : Z),
        In (t, c, n, stride) (tbl1 ++ tbl2) -> 0 < n ->
        (forall net tr, assemble tbl1 tbl2 wm <> inr (net, tr))
        /\ (Forall positive_ratio (tbl1 ++ tbl2) ->
            assemble tbl1 tbl2 wm = inl AssertionError))
  /\ (stride = 1 \/ stride = 2 ->
      InvertedResidual_init inp oup stride t <> inl AssertionError
      /\ (0 < inp -> 0 < oup -> 0 < t ->
          exists blk, InvertedResidual_init inp oup stride t = inr blk))
  /\ forall wm : Q, exists net tr, MobileNetV2_init wm = inr (net, tr).
Proof.
  split; [|split].
  - intros [H1 H2]. split; [apply init_bad; assumption|].
    intros tbl1 tbl2 wm c n Hin Hn.
    assert (Hrun : assemble tbl1 tbl2 wm = inl AssertionError).
    { apply assemble_bad.
      apply List.Exists_exists. exists (t, c, n, stride). split; [exact Hin|].
      unfold row_ok. lia. }
    split; [|intros _; exact Hrun].
    intros net tr Hret. rewrite Hrun in Hret. discriminate Hret.
  - intros H. rewrite (init_ok inp oup stride t H). split; [discriminate|].
    intros _ _ _. eexists. reflexivity.
  - intros wm. eexists. eexists. apply MobileNetV2_init_eq.
Qed.

Lemma C8_stride_assertion_witness :
  (3 <> 1 /\ 3 <> 2)
  /\ InvertedResidual_init 16 24 3 6 = inl AssertionError
  /\ Forall positive_ratio ([(1, 16, 1, 1); (6, 24, 2, 3)] ++ [])
  /\ assemble [(1, 16, 1, 1); (6, 24, 2, 3)] [] 1 = inl AssertionError
  /\ (forall net tr, assemble [(0, 16, 1, 1); (6, 24, 2, 3)] [] 1 <> inr (net, tr)).
Proof.
  assert (H3 : 3 <> 1 /\ 3 <> 2) by (split; discriminate).
  assert (Hpos : Forall positive_ratio ([(1, 16, 1, 1); (6, 24, 2, 3)] ++ []))
    by (repeat constructor).
  split; [exact H3|].
  destruct (C8_stride_assertion 16 24 3 6) as [Hbad _].
  destruct (Hbad H3) as [Hinit Hasm].
  split; [exact Hinit|]. split; [exact Hpos|]. split.
  - apply (Hasm [(1, 16, 1, 1); (6, 24, 2, 3)] [] 1%Q 24 2);
      [right; left; reflexivity | reflexivity | exact Hpos].
  - apply (Hasm [(0, 16, 1, 1); (6, 24, 2, 3)] [] 1%Q 24 2);
      [right; left; reflexivity | reflexivity].
Defined.

(** C9.  Two constructions with the same width multiplier have the same
    channel-count sequence and the same block counts.  The first stage has
    as many blocks as the repeat counts of the first table sum to, the
    second stage as many as those of the second table, together the sum
    over both tables; the first table is the first five rows of the seven
    and the second table the remaining two. *)
Theorem C9_assembly_deterministic (wm : Q) :
  (forall net1 tr1 net2 tr2,
      MobileNetV2_init wm = inr (net1, tr1) ->
      MobileNetV2_init wm = inr (net2, tr2) ->
      channel_sequence net1 = channel_sequence net2
      /\ length (blocks_of (features net1)) = length (blocks_of (features net2))
      /\ length (blocks_of (features2 net1)) = length (blocks_of (features2 net2)))
  /\ exists net tr,
       MobileNetV2_init wm = inr (net, tr)
       /\ Z.of_nat (length (blocks_of (features net))) = repeats_sum table1
       /\ Z.of_nat (length (blocks_of (features2 net))) = repeats_sum table2
       /\ Z.of_nat (length (blocks_of (features net ++ features2 net)))
          = repeats_sum (table1 ++ table2)
       /\ Z.of_nat (length (block_calls tr)) = repeats_sum (table1 ++ table2)
       /\ cfgs1 net = firstn 5 (table1 ++ table2)
       /\ cfgs2 net = skipn 5 (table1 ++ table2)
       /\ length (cfgs2 net) = 2%nat.
Proof.
  split.
  - intros net1 tr1 net2 tr2 H1 H2. rewrite H1 in H2.
    injection H2 as -> _. repeat split.
  - exists (expected_net table1 table2 wm), (expected_trace table1 table2 wm).
    split; [apply MobileNetV2_init_eq|].
    assert (Hcalls : block_calls (expected_trace table1 table2 wm)
                     = concat (table_segments wm (stem_channels wm) table1
                               ++ table_segments wm (table_out wm (stem_channels wm) table1) table2)).
    { unfold expected_trace.
      change (block_calls (?e :: ?l)) with (block_calls [e] ++ block_calls l).
      rewrite !block_calls_app, !block_calls_table, concat_app.
      destruct (gt_1_0 wm); cbn [block_calls flat_map app]; rewrite app_nil_r; reflexivity. }
    rewrite Hcalls.
    unfold table1, table2. segs_compute. repeat split.
Qed.

Lemma C9_assembly_deterministic_witness :
  MobileNetV2_init 1
  = inr (expected_net table1 table2 1, expected_trace table1 table2 1)
  /\ channel_sequence (expected_net table1 table2 1)
     = channel_sequence (expected_net table1 table2 1)
  /\ length (blocks_of (features (expected_net table1 table2 1)))
     = length (blocks_of (features (expected_net table1 table2 1)))
  /\ length (blocks_of (features2 (expected_net table1 table2 1)))
     = length (blocks_of (features2 (expected_net table1 table2 1))).
Proof.
  assert (Hrun : MobileNetV2_init 1
                 = inr (expected_net table1 table2 1,
                        expected_trace table1 table2 1))
    by (vm_compute; reflexivity).
  split; [exact Hrun|].
  exact (proj1 (C9_assembly_deterministic 1) _ _ _ _ Hrun Hrun).
Defined.

Example channel_sequence_width_1 :
  exists net tr,
    MobileNetV2_init 1 = inr (net, tr)
    /\ channel_sequence net
       = map Some [32; 16; 24; 24; 32; 32; 32; 64; 64; 64; 64; 96; 96; 96;
                   160; 160; 160; 320; 1280].
Proof. eexists. eexists. split; vm_compute; reflexivity. Qed.

(** ** The pretrained loader *)

Section LoaderClaims.
Context {Tensor : Type}.
Context {size_test : SizeTest Tensor}.
Variable initial_params : MobileNetV2 -> gmap string Tensor.
Variable load_state_dict_from_url : string -> result (list (string * Tensor)).

Lemma mobilenetv2_missing_source globals (p : option string) :
  truthy p = false ->
  mobilenetv2 initial_params load_state_dict_from_url globals
              {| pretrained := p |}
  = match load_global globals "pretrained" with
    | inl e => inl e
    | inr shown =>
        inl (Exception
               ("darknet request a pretrained path. got [" +:+ shown +:+ "]"))
    end.
Proof.
  intros Hp. unfold mobilenetv2. rewrite MobileNetV2_init_eq.
  cbn [pretrained]. rewrite Hp. reflexivity.
Qed.

Lemma fits_all_same (p : gmap string Tensor) : fits_all p p.
Proof.
  intros k v Hk. rewrite Hk. cbn [from_option]. apply fits_same.
Qed.

Lemma remap_loop_nothing ckpt (d : gmap string Tensor) :
  Forall (fun item =>
            forall k, is_Some (d !! k) -> strip_module (fst item) <> remap_name k)
         ckpt ->
  remap_loop ckpt d = d.
Proof.
  intros Hno. apply map_eq. intros k.
  destruct (d !! k) as [v|] eqn:Hk.
  - rewrite remap_loop_no_match; [exact Hk|].
    apply List.Forall_forall. intros item Hin.
    apply (proj1 (List.Forall_forall _ _) Hno item Hin k).
    rewrite Hk. eauto.
  - destruct (remap_loop ckpt d !! k) as [x|] eqn:E; [|reflexivity].
    destruct (proj1 (remap_loop_is_Some ckpt d k) (ex_intro _ x E)) as [y Hy].
    rewrite Hk in Hy. discriminate Hy.
Qed.

Lemma mobilenetv2_fetch_failed globals (url : string) e :
  truthy (Some url) = true ->
  load_state_dict_from_url url = inl e ->
  mobilenetv2 initial_params load_state_dict_from_url globals
              {| pretrained := Some url |}
  = inl e.
Proof.
  intros Hp Hfetch. unfold mobilenetv2. rewrite MobileNetV2_init_eq.
  cbn [pretrained]. rewrite Hp, Hfetch. reflexivity.
Qed.

Lemma mobilenetv2_pretrained globals (url : string) ckpt :
  truthy (Some url) = true ->
  load_state_dict_from_url url = inr ckpt ->
  mobilenetv2 initial_params load_state_dict_from_url globals
              {| pretrained := Some url |}
  = if decide (fits_all (initial_params (expected_net table1 table2 1))
                 (remap_loop ckpt
                    (initial_params (expected_net table1 table2 1))))
    then inr {| net := expected_net table1 table2 1;
                params := remap_loop ckpt
                            (initial_params (expected_net table1 table2 1)) |}
    else inl (RuntimeError "Error(s) in loading state_dict").
Proof.
  intros Hp Hfetch. unfold mobilenetv2. rewrite MobileNetV2_init_eq.
  cbn [pretrained]. rewrite Hp, Hfetch.
  unfold load_state_dict, state_dict. cbn [params net].
  destruct (decide (fits_all _ _)) as [Hfit | Hfit];
    destruct (decide (_ /\ _)) as [Hload | Hload]; try reflexivity.
  - exfalso. apply Hload. split; [apply remap_loop_dom | exact Hfit].
  - exfalso. apply Hfit. exact (proj2 Hload).
Qed.

(** C3, at the inputs where the code departs from it.  Called with no
    source locator, [None] or the empty string, the method raises
    [NameError] for the name [pretrained], which the function body reads
    and nothing binds; that is not the exception with the message that
    echoes the value. *)
Theorem C3_missing_source_raises_NameError :
  mobilenetv2 initial_params load_state_dict_from_url module_globals
              {| pretrained := None |}
  = inl (NameError "pretrained")
  /\ mobilenetv2 initial_params load_state_dict_from_url module_globals
                 {| pretrained := Some EmptyString |}
     = inl (NameError "pretrained")
  /\ NameError "pretrained" <> Exception (missing_source_message None)
  /\ NameError "pretrained"
     <> Exception (missing_source_message (Some EmptyString)).
Proof.
  split; [|split; [|split; discriminate]].
  - rewrite mobilenetv2_missing_source by reflexivity. reflexivity.
  - rewrite mobilenetv2_missing_source by reflexivity. reflexivity.
Qed.

(** C4, as amended.  The loops remove every occurrence of [module.] from
    each external name and apply the four replacements to each internal
    name.  An internal parameter whose remapped name equals an external
    name so stripped is overwritten with the external tensor, that of the
    last such item; one that no external name matches keeps its initial
    tensor, and no diagnostic is emitted for it: the method, given its
    checkpoint, returns the network with these tensors whenever each of
    them fits its parameter, as every initial tensor does, and so returns
    the network as it was initialised when no external name matches at
    all. *)
Theorem C4_remap_frame (ckpt : list (string * Tensor))
  (d : gmap string Tensor) (k2 : string) (v2 : Tensor) :
  d !! k2 = Some v2 ->
  (Forall (fun item => strip_module (fst item) <> remap_name k2) ckpt ->
   remap_loop ckpt d !! k2 = Some v2)
  /\ (forall pre k1 v1 post,
        ckpt = pre ++ (k1, v1) :: post ->
        strip_module k1 = remap_name k2 ->
        Forall (fun item => strip_module (fst item) <> remap_name k2) post ->
        remap_loop ckpt d !! k2 = Some v1)
  /\ (forall globals url,
        truthy (Some url) = true ->
        load_state_dict_from_url url = inr ckpt ->
        exists m,
          (fits_all (initial_params m) (remap_loop ckpt (initial_params m)) ->
           mobilenetv2 initial_params load_state_dict_from_url globals
                       {| pretrained := Some url |}
           = inr {| net := m; params := remap_loop ckpt (initial_params m) |})
          /\ (Forall (fun item =>
                        forall k, is_Some (initial_params m !! k) ->
                                  strip_module (fst item) <> remap_name k)
                     ckpt ->
              mobilenetv2 initial_params load_state_dict_from_url globals
                          {| pretrained := Some url |}
              = inr {| net := m; params := initial_params m |})).
Proof.
  intros Hk. split; [|split].
  - intros Hnone. rewrite remap_loop_no_match by exact Hnone. exact Hk.
  - intros pre k1 v1 post -> Hm Hpost.
    exact (remap_loop_last_match pre k1 v1 post d k2 v2 Hk Hm Hpost).
  - intros globals url Hp Hfetch.
    exists (expected_net table1 table2 1).
    rewrite (mobilenetv2_pretrained globals url ckpt Hp Hfetch).
    split.
    + intros Hfit.
      destruct (decide _) as [_ | Hn]; [reflexivity | contradiction].
    + intros Hno. rewrite (remap_loop_nothing ckpt _ Hno).
      destruct (decide _) as [_ | Hn]; [reflexivity|].
      exfalso. apply Hn. apply fits_all_same.
Qed.

(** C10.  When the module object [nn] has no attribute [module], running
    the file stops at the class statement of the loader with an attribute
    error, and every use of the loader, whatever its source locator, ends
    in that same error; with [nn.Module] present the error names
    [module]. *)
Theorem C10_class_statement_fails (nn_has : string -> bool) :
  nn_has "module" = false ->
  (exists e,
      exec_module nn_has = inl e
      /\ forall p,
           use_loader nn_has initial_params load_state_dict_from_url p = inl e)
  /\ (nn_has "Module" = true ->
      forall p,
        use_loader nn_has initial_params load_state_dict_from_url p
        = inl (AttributeError "torch.nn" "module")).
Proof.
  intros Hm.
  assert (Hrun : exec_module nn_has
                 = if nn_has "Module"
                   then inl (AttributeError "torch.nn" "module")
                   else inl (AttributeError "torch.nn" "Module")).
  { unfold exec_module, module_body. cbn [exec_body].
    unfold getattr_nn. rewrite Hm.
    destruct (nn_has "Module"); reflexivity. }
  split.
  - destruct (nn_has "Module") eqn:E; eexists; (split; [exact Hrun|]);
      intros p; unfold use_loader; rewrite Hrun; reflexivity.
  - intros HM p. unfold use_loader. rewrite Hrun, HM. reflexivity.
Qed.

End LoaderClaims.

Lemma C4_remap_frame_witness :
  ({[ "features.0.0.weight" := 10; "features2.0.conv.0.weight" := 20 ]}
   : gmap string Z) !! "features2.0.conv.0.weight" = Some 20
  /\ remap_loop
       [ ("module.features.0.0.weight", 1);
         ("module.features.14.conv.0.weight", 2) ]
       ({[ "features.0.0.weight" := 10; "features2.0.conv.0.weight" := 20 ]}
        : gmap string Z)
     !! "features2.0.conv.0.weight" = Some 2.
Proof.
  assert (H : ({[ "features.0.0.weight" := 10;
                  "features2.0.conv.0.weight" := 20 ]} : gmap string Z)
              !! "features2.0.conv.0.weight" = Some 20)
    by (vm_compute; reflexivity).
  split; [exact H|].
  destruct (C4_remap_frame (fun _ => ∅) (fun _ => inr [])
              [ ("module.features.0.0.weight", 1);
                ("module.features.14.conv.0.weight", 2) ]
              _ "features2.0.conv.0.weight" 20 H)
    as (_ & Hlast & _).
  apply (Hlast [ ("module.features.0.0.weight", 1) ]
               "module.features.14.conv.0.weight" 2 []);
    [ reflexivity | vm_compute; reflexivity | constructor ].
Defined.

(** C4 as the specification words it, with [module.] stripped as a prefix,
    fails: the external name [module.module.features.0.0.weight], stripped
    of its prefix, is not the internal name [features.0.0.weight], yet the
    loop overwrites that parameter, because it removes both occurrences. *)
Lemma C4_prefix_counterexample :
  ~ (forall (ckpt : list (string * Z)) (d : gmap string Z) k2 v2,
        d !! k2 = Some v2 ->
        Forall (fun item => strip_module_prefix (fst item) <> remap_name k2)
               ckpt ->
        remap_loop ckpt d !! k2 = Some v2).
Proof.
  intros Hclaim.
  assert (Hk : ({[ "features.0.0.weight" := 0 ]} : gmap string Z)
               !! "features.0.0.weight" = Some 0).
  { apply lookup_singleton_eq. }
  assert (Hne : strip_module_prefix "module.module.features.0.0.weight"
                <> remap_name "features.0.0.weight").
  { vm_compute. discriminate. }
  assert (Heq : strip_module "module.module.features.0.0.weight"
                = remap_name "features.0.0.weight").
  { vm_compute. reflexivity. }
  assert (Hov : remap_loop
                  (([] ++ ("module.module.features.0.0.weight", 1) :: [])%list)
                  ({[ "features.0.0.weight" := 0 ]} : gmap string Z)
                !! "features.0.0.weight" = Some 1).
  { apply (remap_loop_last_match [] "module.module.features.0.0.weight" 1 []
             _ "features.0.0.weight" 0 Hk Heq). apply List.Forall_nil. }
  assert (Hstay : remap_loop
                    (([] ++ ("module.module.features.0.0.weight", 1) :: [])%list)
                    ({[ "features.0.0.weight" := 0 ]} : gmap string Z)
                  !! "features.0.0.weight" = Some 0).
  { apply (Hclaim _ _ _ _ Hk).
    apply List.Forall_cons; [exact Hne | apply List.Forall_nil]. }
  rewrite Hov in Hstay. discriminate Hstay.
Qed.

Lemma C10_class_statement_fails_witness :
  existsb (String.eqb "module")
          [ "Module"; "Sequential"; "Conv2d"; "BatchNorm2d"; "ReLU6" ] = false
  /\ forall p,
       use_loader
         (fun a => existsb (String.eqb a)
                     [ "Module"; "Sequential"; "Conv2d"; "BatchNorm2d"; "ReLU6" ])
         (fun _ => (∅ : gmap string Z)) (fun _ => inr []) p
       = inl (AttributeError "torch.nn" "module").
Proof.
  split; [reflexivity|].
  apply (C10_class_statement_fails
           (fun _ => (∅ : gmap string Z)) (fun _ => inr [])
           (fun a => existsb (String.eqb a)
                       [ "Module"; "Sequential"; "Conv2d"; "BatchNorm2d"; "ReLU6" ]));
    reflexivity.
Defined.

Example strip_module_nested :
  strip_module "module.module.features.0.0.weight" = "features.0.0.weight"
  /\ strip_module_prefix "module.module.features.0.0.weight"
     = "module.features.0.0.weight".
Proof. split; reflexivity. Qed.

Example remap_name_second_stage :
  remap_name "features2.3.conv.7.running_var" = "features.17.conv.7.running_var"
  /\ remap_name "features.13.conv.0.weight" = "features.13.conv.0.weight".
Proof. split; reflexivity. Qed.

(** * Further properties *)

Import Network Shapes ShapeObs LoaderObs Initializer TableObs.

(** ** Channel rounding, beyond the divisors 4 and 8 *)

(** The value [_make_divisible] reaches before the ten-percent guard. *)
Lemma make_divisible_unfold (v : Q) (d : Z) (m : option Z) :
  _make_divisible v d m
  = let lo := match m with None => d | Some x => x end in
    let new_v := Z.max lo (py_int (v + inject_Z d / 2)%Q / d * d) in
    if Qlt_le_dec (inject_Z new_v) ((9 # 10) * v)%Q then new_v + d else new_v.
Proof. reflexivity. Qed.

Lemma py_int_le_floor_or_zero (x : Q) : py_int x <= Z.max 0 (Qfloor x).
Proof.
  destruct x as [n den]. unfold py_int, Qfloor. cbn [Qnum Qden].
  destruct (Z_le_gt_dec 0 n) as [Hn | Hn].
  - rewrite Z.quot_div_nonneg by lia. lia.
  - assert (n ÷ Z.pos den <= 0).
    { apply Z.quot_le_upper_bound; lia. } lia.
Qed.

Lemma half_divisor (d : Z) : (inject_Z d / 2 == inject_Z d * (1 # 2))%Q.
Proof. field. Qed.

Lemma inject_Z_pos (d : Z) : 0 < d -> (0 < inject_Z d)%Q.
Proof. intros H. unfold Qlt. simpl. lia. Qed.

(** The floor of the result, and its divisibility. *)
Lemma make_divisible_lower_bound (v : Q) (d : Z) (m : option Z) :
  0 < d ->
  let lo := match m with None => d | Some x => x end in
  lo <= _make_divisible v d m
  /\ ((d | lo) -> (d | _make_divisible v d m)).
Proof.
  intros Hd lo. rewrite make_divisible_unfold. fold lo. cbv zeta.
  set (n := py_int (v + inject_Z d / 2)%Q / d * d).
  assert (Hn : (d | n)) by (apply Z.divide_factor_r).
  destruct (Qlt_le_dec _ _); split; try lia.
  - intros Hlo. apply Z.divide_add_r; [|apply Z.divide_refl].
    destruct (Z.max_spec lo n) as [[_ ->] | [_ ->]]; assumption.
  - intros Hlo. destruct (Z.max_spec lo n) as [[_ ->] | [_ ->]]; assumption.
Qed.

(** X2.  With a positive divisor and no [min_value], a target that is not
    above the divisor, zero and negative targets included, rounds to the
    divisor itself. *)
Theorem X2_make_divisible_small (v : Q) (d : Z) :
  0 < d -> (v <= inject_Z d)%Q -> _make_divisible v d None = d.
Proof.
  intros Hd Hv. rewrite make_divisible_unfold. cbv zeta.
  pose proof (inject_Z_pos d Hd) as Hdq.
  set (w := py_int (v + inject_Z d / 2)%Q).
  assert (Hw : w < 2 * d).
  { pose proof (py_int_le_floor_or_zero (v + inject_Z d / 2)%Q) as Hle.
    fold w in Hle.
    assert (Hf : Qfloor (v + inject_Z d / 2)%Q < 2 * d).
    { pose proof (Qfloor_le (v + inject_Z d / 2)%Q) as Hfl.
      remember (Qfloor (v + inject_Z d / 2)%Q) as f eqn:Ef. clear Ef.
      rewrite half_divisor in Hfl.
      rewrite Zlt_Qlt. rewrite inject_Z_mult.
      change (inject_Z 2) with 2%Q. lra. }
    lia. }
  assert (Hn : w / d * d <= d).
  { assert (w / d < 2) by (apply Z.div_lt_upper_bound; lia). nia. }
  rewrite Z.max_l by lia.
  destruct (Qlt_le_dec _ _) as [Hlt | _]; [|reflexivity].
  exfalso. lra.
Qed.

(** Bounds of the plain rounding step for a target above minus half a
    divisor. *)
Lemma nearest_bounds (v : Q) (d : Z) :
  0 < d -> (0 <= v + inject_Z d * (1 # 2))%Q ->
  let n := py_int (v + inject_Z d / 2)%Q / d * d in
  (v - inject_Z d * (1 # 2) < inject_Z n)%Q
  /\ (inject_Z n <= v + inject_Z d * (1 # 2))%Q.
Proof.
  intros Hd Hv n. subst n.
  assert (Hv' : (0 <= v + inject_Z d / 2)%Q) by (rewrite half_divisor; exact Hv).
  rewrite (py_int_floor _ Hv').
  pose proof (Qfloor_le (v + inject_Z d / 2)%Q) as Hle.
  pose proof (Qlt_floor (v + inject_Z d / 2)%Q) as Hlt.
  remember (Qfloor (v + inject_Z d / 2)%Q) as w eqn:Ew. clear Ew.
  rewrite half_divisor in Hle, Hlt.
  pose proof (round_down_bounds w d Hd) as [Hlo Hhi].
  assert (Hlo' : w + 1 <= w / d * d + d) by lia.
  rewrite Zle_Qle in Hlo', Hhi.
  rewrite !inject_Z_plus in Hlo'. rewrite inject_Z_plus in Hlt.
  change (inject_Z 1) with 1%Q in *.
  split; lra.
Qed.

(** A positive multiple of the divisor is a fixed point. *)
Lemma make_divisible_multiple_fixed (k d : Z) :
  0 < d -> 1 <= k -> _make_divisible (inject_Z (k * d)) d None = k * d.
Proof.
  intros Hd Hk. rewrite make_divisible_unfold. cbv zeta.
  pose proof (inject_Z_pos d Hd) as Hdq.
  assert (Hkd : (inject_Z d <= inject_Z (k * d))%Q) by (rewrite <- Zle_Qle; nia).
  destruct (nearest_bounds (inject_Z (k * d)) d Hd ltac:(lra)) as [Hlo Hhi].
  set (n := py_int (inject_Z (k * d) + inject_Z d / 2)%Q / d * d) in *.
  assert (Hdiv : (d | n)) by apply Z.divide_factor_r.
  destruct Hdiv as [j Hj].
  assert (Hn : n = k * d).
  { assert (H1 : (inject_Z (k * d) < inject_Z n + inject_Z d)%Q) by lra.
    assert (H2 : (inject_Z n < inject_Z (k * d) + inject_Z d)%Q) by lra.
    rewrite <- inject_Z_plus in H1, H2.
    rewrite <- Zlt_Qlt in H1, H2. rewrite Hj in H1, H2 |- *.
    assert (Hkj : k < j + 1) by (apply (Z.mul_lt_mono_pos_r d); lia).
    assert (Hjk : j < k + 1) by (apply (Z.mul_lt_mono_pos_r d); lia).
    f_equal. lia. }
  rewrite Hn. rewrite Z.max_r by nia.
  destruct (Qlt_le_dec _ _) as [Hlt | _]; [|reflexivity].
  exfalso. lra.
Qed.

(** In exact arithmetic the result lies less than half a divisor below a
    positive target and at most one and a half divisors above it; from a
    target of five divisors on the guard cannot fire. *)
Lemma make_divisible_close (v : Q) (d : Z) :
  0 < d -> (0 < v)%Q ->
  (v - inject_Z d * (1 # 2) < inject_Z (_make_divisible v d None))%Q
  /\ (inject_Z (_make_divisible v d None) <= v + inject_Z d * (3 # 2))%Q
  /\ (inject_Z (5 * d) <= v ->
      inject_Z (_make_divisible v d None) <= v + inject_Z d * (1 # 2))%Q.
Proof.
  intros Hd Hv. rewrite make_divisible_unfold. cbv zeta.
  pose proof (inject_Z_pos d Hd) as Hdq.
  destruct (nearest_bounds v d Hd ltac:(lra)) as [Hlo Hhi].
  set (n := py_int (v + inject_Z d / 2)%Q / d * d) in *.
  destruct (Z.max_spec d n) as [[Hlt ->] | [Hge ->]].
  - (* n is the larger *)
    destruct (Qlt_le_dec _ _) as [Hb | Hb].
    + rewrite inject_Z_plus. split; [lra|]. split; [lra|].
      intros H5. rewrite inject_Z_mult in H5. change (inject_Z 5) with 5%Q in H5.
      exfalso. lra.
    + split; [lra|]. split; [lra|]. intros _. lra.
  - (* the floor d applies *)
    rewrite Zle_Qle in Hge.
    destruct (Qlt_le_dec _ _) as [Hb | Hb].
    + rewrite inject_Z_plus. split; [lra|]. split; [lra|].
      intros H5. rewrite inject_Z_mult in H5. change (inject_Z 5) with 5%Q in H5.
      exfalso. lra.
    + split; [lra|]. split; [lra|].
      intros H5. rewrite inject_Z_mult in H5. change (inject_Z 5) with 5%Q in H5.
      exfalso. lra.
Qed.

(** Rounding is monotone in a positive target. *)
Lemma make_divisible_monotone (v1 v2 : Q) (d : Z) :
  0 < d -> (0 < v1)%Q -> (v1 <= v2)%Q ->
  _make_divisible v1 d None <= _make_divisible v2 d None.
Proof.
  intros Hd Hv1 Hle. rewrite !make_divisible_unfold. cbv zeta.
  pose proof (inject_Z_pos d Hd) as Hdq.
  assert (H1 : (0 <= v1 + inject_Z d / 2)%Q) by (rewrite half_divisor; lra).
  assert (H2 : (0 <= v2 + inject_Z d / 2)%Q) by (rewrite half_divisor; lra).
  rewrite (py_int_floor _ H1), (py_int_floor _ H2).
  assert (Hfl : Qfloor (v1 + inject_Z d / 2) <= Qfloor (v2 + inject_Z d / 2)).
  { apply Qfloor_resp_le. rewrite !half_divisor. lra. }
  remember (Qfloor (v1 + inject_Z d / 2)%Q) as w1 eqn:E1. clear E1.
  remember (Qfloor (v2 + inject_Z d / 2)%Q) as w2 eqn:E2. clear E2.
  assert (Hdivle : w1 / d <= w2 / d) by (apply Z.div_le_mono; lia).
  set (p1 := Z.max d (w1 / d * d)).
  set (p2 := Z.max d (w2 / d * d)).
  assert (Hp : p1 <= p2).
  { unfold p1, p2. apply Z.max_le_compat_l.
    apply Z.mul_le_mono_nonneg_r; lia. }
  assert (Hm1 : exists j, p1 = j * d).
  { unfold p1. destruct (Z.max_spec d (w1 / d * d)) as [[_ ->] | [_ ->]];
      [exists (w1 / d) | exists 1]; lia. }
  assert (Hm2 : exists j, p2 = j * d).
  { unfold p2. destruct (Z.max_spec d (w2 / d * d)) as [[_ ->] | [_ ->]];
      [exists (w2 / d) | exists 1]; lia. }
  destruct Hm1 as [j1 Hj1], Hm2 as [j2 Hj2].
  destruct (Qlt_le_dec (inject_Z p1) ((9 # 10) * v1)) as [Hb1 | Hb1];
    destruct (Qlt_le_dec (inject_Z p2) ((9 # 10) * v2)) as [Hb2 | Hb2];
    try lia.
  assert (Hlt : (inject_Z p1 < inject_Z p2)%Q) by lra.
  rewrite <- Zlt_Qlt in Hlt. rewrite Hj1, Hj2 in Hlt |- *.
  assert (Hj : j1 < j2) by (apply (Z.mul_lt_mono_pos_r d); lia).
  assert (Hs : (j1 + 1) * d <= j2 * d)
    by (apply Z.mul_le_mono_nonneg_r; lia).
  lia.
Qed.

(** X1.  With a positive divisor [_make_divisible] never returns less than
    its floor, which is [min_value] or, when that is omitted, the divisor:
    this holds for every target, negative ones included.  When the floor is
    a multiple of the divisor, so is the result; with [min_value] omitted
    the result is a positive multiple of the divisor for every target. *)
Theorem X1_make_divisible_floor (v : Q) (d : Z) (m : option Z) :
  0 < d ->
  let lo := match m with None => d | Some x => x end in
  lo <= _make_divisible v d m
  /\ ((d | lo) -> (d | _make_divisible v d m))
  /\ exists k, 0 < k /\ _make_divisible v d None = k * d.
Proof.
  intros Hd lo.
  destruct (make_divisible_lower_bound v d m Hd) as [Hlo Hdiv].
  split; [exact Hlo|]. split; [exact Hdiv|].
  destruct (make_divisible_lower_bound v d None Hd) as [Hlo' Hdiv'].
  cbv zeta in Hlo', Hdiv'.
  destruct (Hdiv' (Z.divide_refl d)) as [k Hk].
  exists k. split; [nia | exact Hk].
Qed.

Lemma X1_make_divisible_floor_witness :
  0 < 8
  /\ 16 <= _make_divisible 3 8 (Some 16)
  /\ (8 | _make_divisible 3 8 (Some 16))
  /\ exists k, 0 < k /\ _make_divisible (-5) 8 None = k * 8.
Proof.
  assert (Hd : 0 < 8) by lia.
  split; [exact Hd|].
  destruct (X1_make_divisible_floor 3 8 (Some 16) Hd) as (Hlo & Hdiv & _).
  split; [exact Hlo|]. split; [apply Hdiv; exists 2; reflexivity|].
  exact (proj2 (proj2 (X1_make_divisible_floor (-5) 8 None Hd))).
Defined.

Lemma X2_make_divisible_small_witness :
  0 < 8 /\ (5 <= inject_Z 8)%Q /\ _make_divisible 5 8 None = 8.
Proof.
  assert (Hd : 0 < 8) by lia.
  assert (Hv : (5 <= inject_Z 8)%Q) by (unfold Qle; simpl; lia).
  split; [exact Hd|]. split; [exact Hv|].
  exact (X2_make_divisible_small 5 8 Hd Hv).
Defined.

(** Beyond that range the sum rounds: the multiple 2^56 + 8 of 8 is taken
    to 2^56. *)
Example make_divisible_beyond_exact_range :
  Float64._make_divisible (Float64.Int (2 ^ 56 + 8)) 8 None = inr (2 ^ 56)
  /\ _make_divisible (inject_Z (2 ^ 56 + 8)) 8 None = 2 ^ 56 + 8.
Proof. split; vm_compute; reflexivity. Qed.

(** Within the range the two functions agree on integer targets: here on
    every target up to 2048, for the two divisors the network uses. *)
Example make_divisible_small_integers :
  forallb
    (fun n =>
       forallb
         (fun d =>
            match Float64._make_divisible (Float64.Int n) d None with
            | inr r => r =? _make_divisible (inject_Z n) d None
            | inl _ => false
            end)
         [4; 8])
    (map Z.of_nat (seq 1 2048))
  = true.
Proof. vm_compute. reflexivity. Qed.

(** On the products [c * width_mult] that the constructor rounds, for the
    channel counts of the file and the usual width multipliers 0.1, 0.25,
    0.35, 0.5, 0.75, 1.0, 1.3, 1.4 and 2.0, the function over doubles
    returns what the function in exact arithmetic returns. *)
Example make_divisible_usual_widths :
  forallb
    (fun w : spec_float * Q =>
       forallb
         (fun c =>
            match Float64.mul_int_float c (fst w) with
            | inr v =>
                match Float64._make_divisible (Float64.Float v)
                        (if is_0_1 (snd w) then 4 else 8) None with
                | inr r =>
                    r =? _make_divisible (inject_Z c * snd w)
                           (if is_0_1 (snd w) then 4 else 8) None
                | inl _ => false
                end
            | inl _ => false
            end)
         [32; 16; 24; 32; 64; 96; 160; 320; 1280])
    [ (S754_finite false 7205759403792794 (-56), 1 # 10);
      (S754_finite false 4503599627370496 (-54), 1 # 4);
      (S754_finite false 6305039478318694 (-54), 35 # 100);
      (S754_finite false 4503599627370496 (-53), 1 # 2);
      (S754_finite false 6755399441055744 (-53), 3 # 4);
      (S754_finite false 4503599627370496 (-52), 1 # 1);
      (S754_finite false 5854679515581645 (-52), 13 # 10);
      (S754_finite false 6305039478318694 (-52), 14 # 10);
      (S754_finite false 4503599627370496 (-51), 2 # 1) ]
  = true.
Proof. vm_compute. reflexivity. Qed.

(** X3.  With a positive divisor and no [min_value], a positive multiple
    of the divisor within the range of exactly added integers is returned
    unchanged, and so rounding a rounded value of that range again changes
    nothing. *)
Theorem X3_make_divisible_fixed_point (d : Z) :
  0 < d ->
  (forall k, 1 <= k -> k * d < Float64.exact_range ->
             _make_divisible (inject_Z (k * d)) d None = k * d)
  /\ forall v,
       _make_divisible v d None < Float64.exact_range ->
       _make_divisible (inject_Z (_make_divisible v d None)) d None
       = _make_divisible v d None.
Proof.
  intros Hd. split.
  - intros k Hk _. apply make_divisible_multiple_fixed; assumption.
  - intros v _.
    destruct (make_divisible_lower_bound v d None Hd) as [Hlo Hdiv].
    cbv zeta in Hlo, Hdiv.
    destruct (Hdiv (Z.divide_refl d)) as [k Hk].
    rewrite Hk. apply make_divisible_multiple_fixed; [exact Hd | nia].
Qed.

Lemma X3_make_divisible_fixed_point_witness :
  0 < 8
  /\ _make_divisible (inject_Z (3 * 8)) 8 None = 3 * 8
  /\ _make_divisible (inject_Z (_make_divisible 10 8 None)) 8 None
     = _make_divisible 10 8 None.
Proof.
  assert (Hd : 0 < 8) by lia.
  split; [exact Hd|].
  destruct (X3_make_divisible_fixed_point 8 Hd) as [Hfix Hidem].
  split.
  - apply Hfix; [lia | reflexivity].
  - apply (Hidem 10%Q). reflexivity.
Defined.

(** X4.  For a positive target and a positive divisor, both within the
    range of exactly added integers, the result lies less than half a
    divisor below the target and at most one and a half divisors above
    it; for an integer target of five divisors or more the ten-percent
    guard cannot fire and the result is at most half a divisor above. *)
Theorem X4_make_divisible_close (v : Q) (d : Z) :
  0 < d < Float64.exact_range -> (0 < v)%Q ->
  (v < inject_Z Float64.exact_range)%Q ->
  (v - inject_Z d * (1 # 2) < inject_Z (_make_divisible v d None))%Q
  /\ (inject_Z (_make_divisible v d None) <= v + inject_Z d * (3 # 2))%Q
  /\ forall n : Z,
       (v == inject_Z n)%Q -> 5 * d <= n ->
       (inject_Z (_make_divisible v d None) <= v + inject_Z d * (1 # 2))%Q.
Proof.
  intros [Hd _] Hv _.
  destruct (make_divisible_close v d Hd Hv) as (Hlo & Hhi & Hfar).
  split; [exact Hlo|]. split; [exact Hhi|].
  intros n Hn H5. apply Hfar. rewrite Hn, <- Zle_Qle. exact H5.
Qed.

Lemma X4_make_divisible_close_witness :
  0 < 8 < Float64.exact_range /\ (0 < 100)%Q
  /\ (100 < inject_Z Float64.exact_range)%Q
  /\ (100 - inject_Z 8 * (1 # 2) < inject_Z (_make_divisible 100 8 None))%Q
  /\ (inject_Z (_make_divisible 100 8 None) <= 100 + inject_Z 8 * (3 # 2))%Q
  /\ (inject_Z (_make_divisible 100 8 None) <= 100 + inject_Z 8 * (1 # 2))%Q.
Proof.
  assert (Hd : 0 < 8 < Float64.exact_range) by (split; reflexivity).
  assert (Hv : (0 < 100)%Q) by reflexivity.
  assert (Hb : (100 < inject_Z Float64.exact_range)%Q) by reflexivity.
  split; [exact Hd|]. split; [exact Hv|]. split; [exact Hb|].
  destruct (X4_make_divisible_close 100 8 Hd Hv Hb) as (Hlo & Hhi & Hfar).
  split; [exact Hlo|]. split; [exact Hhi|].
  apply (Hfar 100); [reflexivity | lia].
Defined.

(** X5.  With one positive divisor and no [min_value], of two positive
    targets the larger never rounds to the smaller value; and a target
    within the range of exactly added integers never rounds below a
    positive multiple of the divisor that it reaches. *)
Theorem X5_make_divisible_monotone (v1 v2 : Q) (d : Z) :
  0 < d -> (0 < v1)%Q -> (v1 <= v2)%Q ->
  _make_divisible v1 d None <= _make_divisible v2 d None
  /\ forall k, 1 <= k -> (inject_Z (k * d) <= v1)%Q ->
               (v1 < inject_Z Float64.exact_range)%Q ->
               k * d <= _make_divisible v1 d None.
Proof.
  intros Hd H1 Hle. split.
  - apply make_divisible_monotone; assumption.
  - intros k Hk Hkv _.
    rewrite <- (make_divisible_multiple_fixed k d Hd Hk) at 1.
    apply make_divisible_monotone; [exact Hd | | exact Hkv].
    apply inject_Z_pos. nia.
Qed.

Lemma X5_make_divisible_monotone_witness :
  0 < 8 /\ (0 < 10)%Q /\ (10 <= 20)%Q
  /\ _make_divisible 10 8 None <= _make_divisible 20 8 None
  /\ 1 * 8 <= _make_divisible 10 8 None.
Proof.
  assert (Hd : 0 < 8) by lia.
  assert (H1 : (0 < 10)%Q) by reflexivity.
  assert (H2 : (10 <= 20)%Q) by (unfold Qle; simpl; lia).
  split; [exact Hd|]. split; [exact H1|]. split; [exact H2|].
  destruct (X5_make_divisible_monotone 10 20 8 Hd H1 H2) as [Hm Hk].
  split; [exact Hm|].
  apply Hk; [lia | unfold Qle; simpl; lia | reflexivity].
Defined.

(** ** Shapes through a block and through the network *)

Lemma conv_extent_3 (n s : Z) : conv_extent n 3 s 1 = down s n.
Proof. unfold conv_extent, down. f_equal. f_equal. lia. Qed.

Lemma conv_extent_1 (n : Z) : conv_extent n 1 1 0 = n.
Proof. unfold conv_extent. rewrite Z.div_1_r. lia. Qed.

Lemma down_1 (n : Z) : down 1 n = n.
Proof. unfold down. rewrite Z.div_1_r. lia. Qed.

Lemma down_pos (s n : Z) : 0 < s -> 1 <= n -> 1 <= down s n.
Proof.
  intros Hs Hn. unfold down.
  assert (0 <= (n - 1) / s) by (apply Z.div_pos; lia). lia.
Qed.

(** A pointwise convolution on a matching input. *)
Lemma pointwise_shape training cin cout N h w :
  layer_shape training (Conv2d cin cout 1 1 0 1 false)
    (Some {| batch := N; channels := cin; height := h; width := w |})
  = if (1 <=? h) && (1 <=? w)
    then Some {| batch := N; channels := cout; height := h; width := w |}
    else None.
Proof.
  cbn [layer_shape batch channels height width].
  rewrite Z.eqb_refl, !Z.mod_1_r, !conv_extent_1, !Z.add_0_r.
  reflexivity.
Qed.

Lemma depthwise_shape training c s N h w :
  0 < c -> 0 < s -> 1 <= h -> 1 <= w ->
  layer_shape training (Conv2d c c 3 s 1 c false)
    (Some {| batch := N; channels := c; height := h; width := w |})
  = Some {| batch := N; channels := c;
            height := down s h; width := down s w |}.
Proof.
  intros Hc Hs Hh Hw. cbn [layer_shape batch channels height width].
  rewrite Z.eqb_refl, Z_mod_same_full, !conv_extent_3.
  replace (0 <? c) with true by (symmetry; apply Z.ltb_lt; lia).
  replace (0 <? s) with true by (symmetry; apply Z.ltb_lt; lia).
  replace (3 <=? h + 2 * 1) with true by (symmetry; apply Z.leb_le; lia).
  replace (3 <=? w + 2 * 1) with true by (symmetry; apply Z.leb_le; lia).
  reflexivity.
Qed.

(** A normalisation layer on a matching input: in training mode it rejects
    a batch that gives it one value per channel. *)
Lemma batchnorm_shape training c N h w :
  layer_shape training (BatchNorm2d c)
    (Some {| batch := N; channels := c; height := h; width := w |})
  = if one_value training N h w then None
    else Some {| batch := N; channels := c; height := h; width := w |}.
Proof.
  cbn [layer_shape channels]. rewrite Z.eqb_refl.
  unfold one_value, _verify_batch_size. cbn [batch height width andb].
  destruct training; cbn [negb orb andb]; [|reflexivity].
  destruct (N * h * w =? 1); reflexivity.
Qed.

Lemma relu_shape training inplace (x : option shape) :
  layer_shape training (ReLU6 inplace) x = x.
Proof. destruct x; reflexivity. Qed.

(** The block the constructor returns for a stride it accepts. *)
Lemma mk_block_eq (inp oup stride t : Z) :
  stride = 1 \/ stride = 2 ->
  mk_block (inp, oup, stride, t)
  = {| identity := (stride =? 1) && (inp =? oup);
       Block.conv :=
         if t =? 1 then
           [ Conv2d (inp * t) (inp * t) 3 stride 1 (inp * t) false;
             BatchNorm2d (inp * t);
             ReLU6 true;
             Conv2d (inp * t) oup 1 1 0 1 false;
             BatchNorm2d oup ]
         else
           [ Conv2d inp (inp * t) 1 1 0 1 false;
             BatchNorm2d (inp * t);
             ReLU6 true;
             Conv2d (inp * t) (inp * t) 3 stride 1 (inp * t) false;
             BatchNorm2d (inp * t);
             ReLU6 true;
             Conv2d (inp * t) oup 1 1 0 1 false;
             BatchNorm2d oup ] |}.
Proof.
  intros Hs. unfold mk_block, InvertedResidual_init.
  cbn [arg_inp arg_oup arg_stride arg_ratio].
  replace (in_1_2 stride) with true by (destruct Hs; subst; reflexivity).
  reflexivity.
Qed.

Lemma init_stride (inp oup stride t : Z) (b : InvertedResidual) :
  InvertedResidual_init inp oup stride t = inr b ->
  (stride = 1 \/ stride = 2) /\ b = mk_block (inp, oup, stride, t).
Proof.
  intros Hinit.
  assert (Hs : stride = 1 \/ stride = 2).
  { unfold InvertedResidual_init, in_1_2 in Hinit. cbn [existsb] in Hinit.
    destruct (Z.eqb_spec stride 1); [left; assumption|].
    destruct (Z.eqb_spec stride 2); [right; assumption|].
    discriminate. }
  split; [exact Hs|].
  rewrite (init_ok inp oup stride t Hs) in Hinit. injection Hinit as <-.
  reflexivity.
Qed.

Ltac dims_ok :=
  match goal with
  | |- context [(1 <=? ?a) && (1 <=? ?b)] =>
      replace ((1 <=? a) && (1 <=? b)) with true
        by (symmetry; apply andb_true_iff; split; apply Z.leb_le; assumption);
      cbv iota
  end.

(** One value per channel stays one value per channel after a strided
    convolution. *)
Lemma one_value_down (s N h w : Z) :
  0 < s -> 1 <= N -> 1 <= h -> 1 <= w ->
  N * h * w = 1 -> N * down s h * down s w = 1.
Proof.
  intros Hs HN Hh Hw H.
  assert (HNh : 1 <= N * h) by nia.
  assert (Ew : w = 1) by nia. subst w.
  assert (EN : N = 1) by nia. subst N.
  assert (Eh : h = 1) by lia. subst h.
  unfold down. rewrite Z.sub_diag, Zdiv_0_l. reflexivity.
Qed.

Lemma one_value_step training (s N h w : Z) :
  0 < s -> 1 <= N -> 1 <= h -> 1 <= w ->
  one_value training N h w = true ->
  one_value training N (down s h) (down s w) = true.
Proof.
  intros Hs HN Hh Hw H. unfold one_value in *.
  apply andb_true_iff in H as [-> H]. apply Z.eqb_eq in H.
  cbn [andb]. apply Z.eqb_eq. apply one_value_down; assumption.
Qed.

Lemma layer_shape_None training (l : Layer) : layer_shape training l None = None.
Proof. reflexivity. Qed.

Lemma Sequential_forward_None training (m : Sequential) :
  Sequential_forward (layer_shape training) m None = None.
Proof.
  induction m as [|l m IH]; [reflexivity|].
  unfold Sequential_forward in *. cbn [fold_left]. exact IH.
Qed.

Lemma add_shape_None_r (x : option shape) : add_shape x None = None.
Proof. destruct x; reflexivity. Qed.

(** The layers of a constructed block on a matching input. *)
Lemma block_conv_shape training (inp oup stride t N h w : Z) :
  stride = 1 \/ stride = 2 ->
  0 < inp -> 0 < t -> 1 <= N -> 1 <= h -> 1 <= w ->
  Sequential_forward (layer_shape training)
    (Block.conv (mk_block (inp, oup, stride, t)))
    (Some {| batch := N; channels := inp; height := h; width := w |})
  = if one_value training N (down stride h) (down stride w) then None
    else Some {| batch := N; channels := oup;
                 height := down stride h; width := down stride w |}.
Proof.
  intros Hs Hinp Ht HN Hh Hw.
  assert (Hspos : 0 < stride) by lia.
  pose proof (down_pos stride h Hspos Hh) as Hdh.
  pose proof (down_pos stride w Hspos Hw) as Hdw.
  assert (Hhid : 0 < inp * t) by nia.
  pose proof (one_value_step training stride N h w Hspos HN Hh Hw) as Hstep.
  rewrite (mk_block_eq inp oup stride t Hs). cbn [Block.conv].
  destruct (Z.eqb_spec t 1) as [-> | Hne].
  - rewrite Z.mul_1_r in *.
    unfold Sequential_forward. cbn [fold_left]. rewrite !relu_shape.
    rewrite depthwise_shape by assumption.
    rewrite batchnorm_shape.
    destruct (one_value training N (down stride h) (down stride w)) eqn:E;
      [reflexivity|].
    rewrite pointwise_shape. dims_ok.
    rewrite batchnorm_shape, E. reflexivity.
  - unfold Sequential_forward. cbn [fold_left]. rewrite !relu_shape.
    rewrite pointwise_shape. dims_ok.
    rewrite batchnorm_shape.
    destruct (one_value training N h w) eqn:E0.
    + rewrite (Hstep eq_refl). reflexivity.
    + rewrite depthwise_shape by assumption.
      rewrite batchnorm_shape.
      destruct (one_value training N (down stride h) (down stride w)) eqn:E;
        [reflexivity|].
      rewrite pointwise_shape. dims_ok.
      rewrite batchnorm_shape, E. reflexivity.
Qed.

(** The shape a constructed block gives its input. *)
Lemma block_forward_shape training (inp oup stride t N h w : Z)
  (b : InvertedResidual) :
  InvertedResidual_init inp oup stride t = inr b ->
  0 < inp -> 0 < t -> 1 <= N -> 1 <= h -> 1 <= w ->
  block_shape training b
    (Some {| batch := N; channels := inp; height := h; width := w |})
  = if one_value training N (down stride h) (down stride w) then None
    else Some {| batch := N; channels := oup;
                 height := down stride h; width := down stride w |}.
Proof.
  intros Hinit Hinp Ht HN Hh Hw.
  destruct (init_stride _ _ _ _ _ Hinit) as [Hs ->].
  unfold block_shape, InvertedResidual_forward.
  rewrite (block_conv_shape training inp oup stride t N h w Hs Hinp Ht HN Hh Hw).
  rewrite (mk_block_eq inp oup stride t Hs). cbn [identity].
  destruct ((stride =? 1) && (inp =? oup)) eqn:Hid; cbn [snd]; [|reflexivity].
  apply andb_true_iff in Hid. rewrite !Z.eqb_eq in Hid.
  destruct Hid as [-> ->]. rewrite !down_1.
  destruct (one_value training N h w); [reflexivity|].
  unfold add_shape, broadcast_dim. cbn [batch channels height width].
  rewrite !Z.eqb_refl. reflexivity.
Qed.

Lemma block_rejects training (inp oup stride t N c h w : Z) :
  stride = 1 \/ stride = 2 -> c <> inp ->
  block_shape training (mk_block (inp, oup, stride, t))
    (Some {| batch := N; channels := c; height := h; width := w |}) = None.
Proof.
  intros Hs Hc. rewrite (mk_block_eq inp oup stride t Hs).
  unfold block_shape, InvertedResidual_forward. cbn [identity Block.conv].
  assert (Hconv : forall rest l,
             layer_shape training l
               (Some {| batch := N; channels := c; height := h; width := w |})
             = None ->
             Sequential_forward (layer_shape training) (l :: rest)
               (Some {| batch := N; channels := c; height := h; width := w |})
             = None).
  { intros rest l E. unfold Sequential_forward. cbn [fold_left]. rewrite E.
    apply Sequential_forward_None. }
  assert (E : (c =? inp) = false) by (apply Z.eqb_neq; exact Hc).
  destruct (Z.eqb_spec t 1) as [-> | Ht].
  - rewrite Hconv.
    + destruct ((stride =? 1) && (inp =? oup)); cbn [snd];
        [apply add_shape_None_r | reflexivity].
    + cbn [layer_shape channels]. rewrite Z.mul_1_r, E. reflexivity.
  - rewrite Hconv.
    + destruct ((stride =? 1) && (inp =? oup)); cbn [snd];
        [apply add_shape_None_r | reflexivity].
    + cbn [layer_shape channels]. rewrite E. reflexivity.
Qed.

(** X6.  Under the runtime's shape rules, a block that
    [InvertedResidual(inp, oup, stride, t)] constructs, with positive
    [inp], [oup] and [t], is given a batch of [N] samples of [inp] channels
    and extent [h] by [w].  Outside training mode, and in training mode
    unless the batch and the extent after the block's stride leave one
    value per channel, it returns [N] samples of [oup] channels and the
    extent of a 3x3 convolution of padding 1 and the block's stride: no
    layer of the block and, when the identity flag is set, not the addition
    either, meets a shape it rejects.  In training mode with one value per
    channel a normalisation layer rejects the batch.  An input of any other
    channel count is rejected in both modes. *)
Theorem X6_block_forward_shape (training : bool) (inp oup stride t N h w : Z)
  (b : InvertedResidual) :
  InvertedResidual_init inp oup stride t = inr b ->
  0 < inp -> 0 < oup -> 0 < t -> 1 <= N -> 1 <= h -> 1 <= w ->
  (training = false \/ N * down stride h * down stride w <> 1 ->
   block_shape training b
     (Some {| batch := N; channels := inp; height := h; width := w |})
   = Some {| batch := N; channels := oup;
             height := down stride h; width := down stride w |})
  /\ (training = true -> N * down stride h * down stride w = 1 ->
      block_shape training b
        (Some {| batch := N; channels := inp; height := h; width := w |})
      = None)
  /\ forall c, c <> inp ->
       block_shape training b
         (Some {| batch := N; channels := c; height := h; width := w |})
       = None.
Proof.
  intros Hinit Hinp Houp Ht HN Hh Hw.
  pose proof (block_forward_shape training inp oup stride t N h w b
                Hinit Hinp Ht HN Hh Hw) as Hfwd.
  unfold one_value in Hfwd.
  split; [|split].
  - intros [-> | Hne]; [exact Hfwd|].
    apply Z.eqb_neq in Hne. rewrite Hne, andb_false_r in Hfwd. exact Hfwd.
  - intros -> Hone. apply Z.eqb_eq in Hone. rewrite Hone in Hfwd. exact Hfwd.
  - intros c Hc. destruct (init_stride _ _ _ _ _ Hinit) as [Hs ->].
    apply block_rejects; assumption.
Qed.

Lemma X6_block_forward_shape_witness :
  InvertedResidual_init 96 160 2 6 = inr (mk_block (96, 160, 2, 6))
  /\ block_shape true (mk_block (96, 160, 2, 6))
       (Some {| batch := 1; channels := 96; height := 14; width := 14 |})
     = Some {| batch := 1; channels := 160; height := 7; width := 7 |}
  /\ block_shape true (mk_block (96, 160, 2, 6))
       (Some {| batch := 1; channels := 3; height := 14; width := 14 |})
     = None.
Proof.
  assert (Hi : InvertedResidual_init 96 160 2 6
               = inr (mk_block (96, 160, 2, 6))) by reflexivity.
  split; [exact Hi|].
  destruct (X6_block_forward_shape true 96 160 2 6 1 14 14 _ Hi)
    as (Hok & _ & Hrej); try lia.
  split; [apply Hok; right; vm_compute; discriminate|].
  apply Hrej. discriminate.
Defined.

Lemma stage_forward_cons {T} (add : T -> T -> T) (lf : Layer -> T -> T) c cs x :
  stage_forward add lf (c :: cs) x
  = stage_forward add lf cs (Child_forward add lf c x).
Proof. reflexivity. Qed.

Lemma stage_forward_app {T} (add : T -> T -> T) (lf : Layer -> T -> T) cs1 cs2 x :
  stage_forward add lf (cs1 ++ cs2) x
  = stage_forward add lf cs2 (stage_forward add lf cs1 x).
Proof. unfold stage_forward. apply fold_left_app. Qed.

Lemma Child_forward_None training (c : Child) :
  Child_forward add_shape (layer_shape training) c None = None.
Proof.
  destruct c as [m | b]; cbn [Child_forward].
  - apply Sequential_forward_None.
  - unfold InvertedResidual_forward.
    destruct (identity b); cbn [snd]; rewrite Sequential_forward_None;
      reflexivity.
Qed.

Lemma stage_forward_None training (cs : list Child) :
  stage_forward add_shape (layer_shape training) cs None = None.
Proof.
  induction cs as [|c cs IH]; [reflexivity|].
  rewrite stage_forward_cons, Child_forward_None. exact IH.
Qed.

Lemma strides_down_cons (a : block_args) (bs : list block_args) (n : Z) :
  strides_down (a :: bs) n = strides_down bs (down (arg_stride a) n).
Proof. reflexivity. Qed.

Lemma last_out_cons (c : Z) (a : block_args) (bs : list block_args) :
  last_out c (a :: bs) = last_out (arg_oup a) bs.
Proof. reflexivity. Qed.

Lemma strides_down_pos (bs : list block_args) : forall n,
  Forall call_ok bs -> 1 <= n -> 1 <= strides_down bs n.
Proof.
  induction bs as [|a bs IH]; intros n Hok Hn; [exact Hn|].
  inversion Hok as [|? ? Ha Hrest]; subst.
  destruct Ha as (_ & _ & _ & Hs).
  rewrite strides_down_cons. apply IH; [exact Hrest|].
  apply down_pos; [lia | exact Hn].
Qed.

Lemma one_value_strides training (bs : list block_args) : forall N h w,
  Forall call_ok bs -> 1 <= N -> 1 <= h -> 1 <= w ->
  one_value training N h w = true ->
  one_value training N (strides_down bs h) (strides_down bs w) = true.
Proof.
  induction bs as [|a bs IH]; intros N h w Hok HN Hh Hw H; [exact H|].
  inversion Hok as [|? ? Ha Hrest]; subst.
  destruct Ha as (_ & _ & _ & Hs).
  assert (Hspos : 0 < arg_stride a) by lia.
  rewrite !strides_down_cons.
  apply IH; [exact Hrest | exact HN | apply down_pos; assumption
            | apply down_pos; assumption | ].
  apply one_value_step; assumption.
Qed.

(** A non-empty sequence of blocks built by chained calls maps shapes as its
    calls say; in training mode it rejects a batch that its strides bring
    down to one value per channel. *)
Lemma stage_blocks_shape training (bs : list block_args) : forall c0 N h w,
  chained c0 bs -> Forall call_ok bs -> bs <> [] ->
  0 < c0 -> 1 <= N -> 1 <= h -> 1 <= w ->
  stage_forward add_shape (layer_shape training)
    (map (fun a => IRBlock (mk_block a)) bs)
    (Some {| batch := N; channels := c0; height := h; width := w |})
  = if one_value training N (strides_down bs h) (strides_down bs w) then None
    else Some {| batch := N;
                 channels := last_out c0 bs;
                 height := strides_down bs h;
                 width := strides_down bs w |}.
Proof.
  induction bs as [|a bs IH]; intros c0 N h w Hch Hok Hne Hc HN Hh Hw;
    [congruence|].
  destruct a as [[[i o] s] t].
  cbn [chained arg_inp arg_oup] in Hch. destruct Hch as [-> Hch].
  inversion Hok as [|? ? Ha Hrest]; subst.
  destruct Ha as (Hi & Ho & Ht & Hs).
  cbn [arg_inp arg_oup arg_ratio arg_stride] in Hi, Ho, Ht, Hs.
  assert (Hspos : 0 < s) by lia.
  pose proof (down_pos s h Hspos Hh) as Hdh.
  pose proof (down_pos s w Hspos Hw) as Hdw.
  cbn [map]. rewrite stage_forward_cons. cbn [Child_forward].
  pose proof (block_forward_shape training c0 o s t N h w _
                (init_ok c0 o s t Hs) Hi Ht HN Hh Hw) as Hblk.
  unfold block_shape in Hblk. rewrite Hblk.
  rewrite !strides_down_cons, last_out_cons. cbn [arg_stride arg_oup].
  destruct bs as [|a' bs'].
  - reflexivity.
  - destruct (one_value training N (down s h) (down s w)) eqn:E.
    + rewrite stage_forward_None.
      rewrite (one_value_strides training (a' :: bs') N _ _ Hrest HN Hdh Hdw E).
      reflexivity.
    + apply (IH o N (down s h) (down s w) Hch Hrest); try assumption.
      discriminate.
Qed.

Lemma stem_shape training c N h w :
  0 < c -> 1 <= h -> 1 <= w ->
  Sequential_forward (layer_shape training) (conv_3x3_bn 3 c 2)
    (Some {| batch := N; channels := 3; height := h; width := w |})
  = if one_value training N (down 2 h) (down 2 w) then None
    else Some {| batch := N; channels := c;
                 height := down 2 h; width := down 2 w |}.
Proof.
  intros Hc Hh Hw. unfold conv_3x3_bn, Sequential_forward. cbn [fold_left].
  rewrite relu_shape.
  assert (E : layer_shape training (Conv2d 3 c 3 2 1 1 false)
                (Some {| batch := N; channels := 3; height := h; width := w |})
              = Some {| batch := N; channels := c;
                        height := down 2 h; width := down 2 w |}).
  { cbn [layer_shape batch channels height width].
    rewrite !Z.mod_1_r, !conv_extent_3.
    replace (3 <=? h + 2 * 1) with true by (symmetry; apply Z.leb_le; lia).
    replace (3 <=? w + 2 * 1) with true by (symmetry; apply Z.leb_le; lia).
    reflexivity. }
  rewrite E. apply batchnorm_shape.
Qed.

Lemma projection_shape training cin cout N h w :
  1 <= h -> 1 <= w ->
  Sequential_forward (layer_shape training) (conv_1x1_bn cin cout)
    (Some {| batch := N; channels := cin; height := h; width := w |})
  = if one_value training N h w then None
    else Some {| batch := N; channels := cout; height := h; width := w |}.
Proof.
  intros Hh Hw. unfold conv_1x1_bn, Sequential_forward. cbn [fold_left].
  rewrite relu_shape, pointwise_shape. dims_ok. apply batchnorm_shape.
Qed.

Lemma divisor_pos (wm : Q) : 0 < (if is_0_1 wm then 4 else 8).
Proof. destruct (is_0_1 wm); lia. Qed.

Lemma rounded_pos (wm : Q) (r : row) : 0 < rounded wm r.
Proof.
  destruct r as [[[t c] n] s]. unfold rounded.
  pose proof (make_divisible_lower_bound (inject_Z c * wm)
                (if is_0_1 wm then 4 else 8) None (divisor_pos wm)) as [H _].
  cbv zeta in H. pose proof (divisor_pos wm). lia.
Qed.

Lemma stem_channels_pos (wm : Q) : 0 < stem_channels wm.
Proof.
  unfold stem_channels.
  pose proof (make_divisible_lower_bound (32 * wm)
                (if is_0_1 wm then 4 else 8) None (divisor_pos wm)) as [H _].
  cbv zeta in H. pose proof (divisor_pos wm). lia.
Qed.

Lemma last_channels_pos (wm : Q) : 0 < last_channels wm.
Proof.
  unfold last_channels. destruct (gt_1_0 wm); [|lia].
  pose proof (make_divisible_lower_bound (1280 * wm)
                (if is_0_1 wm then 4 else 8) None (divisor_pos wm)) as [H _].
  cbv zeta in H. pose proof (divisor_pos wm). lia.
Qed.

Lemma iter_down_pos (k : nat) (n : Z) : 1 <= n -> 1 <= Nat.iter k (down 2) n.
Proof.
  intros Hn. induction k as [|k IH]; [exact Hn|].
  cbn [Nat.iter]. apply down_pos; [lia | exact IH].
Qed.

Lemma one_value_iter training (k : nat) (N h w : Z) :
  1 <= N -> 1 <= h -> 1 <= w ->
  one_value training N (Nat.iter k (down 2) h) (Nat.iter k (down 2) w) = true ->
  one_value training N (Nat.iter (S k) (down 2) h) (Nat.iter (S k) (down 2) w)
  = true.
Proof.
  intros HN Hh Hw H. cbn [Nat.iter].
  apply one_value_step; [lia | exact HN | apply iter_down_pos; exact Hh
                        | apply iter_down_pos; exact Hw | exact H].
Qed.

Ltac calls_ok wm :=
  repeat (apply List.Forall_cons;
          [ unfold call_ok; cbn [arg_inp arg_oup arg_ratio arg_stride];
            repeat split;
            first [ apply rounded_pos | apply stem_channels_pos | lia
                  | left; reflexivity | right; reflexivity ]
          | ]);
  apply List.Forall_nil.

(** X7.  For every width multiplier the constructed network is given a
    batch of [N] samples of 3 channels and extent at least 1 by 1.  Outside
    training mode, and in training mode unless the batch and the extent
    halved five times leave one value per channel, [forward] returns the
    pair [(x1, x2)]: [x1] has the rounded [96 * width_mult] channels and the
    input's extent halved four times, rounding up; [x2] has the channels of
    the final projection and the extent halved five times.  In training
    mode with one value per channel a normalisation layer rejects the
    batch and [x2] is not produced. *)
Theorem X7_forward_shapes (training : bool) (wm : Q) (N h w : Z) :
  1 <= N -> 1 <= h -> 1 <= w ->
  exists net tr,
    MobileNetV2_init wm = inr (net, tr)
    /\ (training = false
        \/ N * Nat.iter 5 (down 2) h * Nat.iter 5 (down 2) w <> 1 ->
        MobileNetV2_forward add_shape (layer_shape training) net
          (Some {| batch := N; channels := 3; height := h; width := w |})
        = (Some {| batch := N;
                   channels :=
                     _make_divisible (96 * wm)
                                     (if is_0_1 wm then 4 else 8) None;
                   height := Nat.iter 4 (down 2) h;
                   width := Nat.iter 4 (down 2) w |},
           Some {| batch := N;
                   channels :=
                     if gt_1_0 wm
                     then _make_divisible (1280 * wm)
                                          (if is_0_1 wm then 4 else 8) None
                     else 1280;
                   height := Nat.iter 5 (down 2) h;
                   width := Nat.iter 5 (down 2) w |}))
    /\ (training = true ->
        N * Nat.iter 5 (down 2) h * Nat.iter 5 (down 2) w = 1 ->
        snd (MobileNetV2_forward add_shape (layer_shape training) net
               (Some {| batch := N; channels := 3; height := h; width := w |}))
        = None).
Proof.
  intros HN Hh Hw.
  exists (expected_net table1 table2 wm), (expected_trace table1 table2 wm).
  split; [apply MobileNetV2_init_eq|].
  pose proof (iter_down_pos 1 h Hh) as Hh1.
  pose proof (iter_down_pos 1 w Hw) as Hw1.
  cbn [Nat.iter] in Hh1, Hw1.
  pose proof (iter_down_pos 4 h Hh) as Hh4.
  pose proof (iter_down_pos 4 w Hw) as Hw4.
  pose proof (iter_down_pos 5 h Hh) as Hh5.
  pose proof (iter_down_pos 5 w Hw) as Hw5.
  set (v1 := one_value training N (down 2 h) (down 2 w)).
  set (v4 := one_value training N (Nat.iter 4 (down 2) h)
                       (Nat.iter 4 (down 2) w)).
  set (v5 := one_value training N (Nat.iter 5 (down 2) h)
                       (Nat.iter 5 (down 2) w)).
  assert (H14 : v1 = true -> v4 = true).
  { intros H. unfold v4.
    apply (one_value_iter training 3 N h w HN Hh Hw).
    apply (one_value_iter training 2 N h w HN Hh Hw).
    apply (one_value_iter training 1 N h w HN Hh Hw). exact H. }
  assert (H45 : v4 = true -> v5 = true).
  { intros H. apply (one_value_iter training 4 N h w HN Hh Hw). exact H. }
  set (bs1 := concat (table_segments wm (stem_channels wm) table1)).
  set (bs2 := concat (table_segments wm (rounded wm (6, 96, 3, 1)) table2)).
  assert (E1 : last_out (stem_channels wm) bs1 = rounded wm (6, 96, 3, 1)).
  { unfold bs1, table1. segs_compute. reflexivity. }
  assert (E1' : table_out wm (stem_channels wm) table1
                = rounded wm (6, 96, 3, 1)).
  { unfold table1. segs_compute. reflexivity. }
  assert (Eh : forall n, strides_down bs1 (down 2 n) = Nat.iter 4 (down 2) n).
  { intros n. unfold bs1, table1, strides_down. segs_compute.
    cbn [fold_left arg_stride]. rewrite !down_1. reflexivity. }
  assert (E2 : last_out (rounded wm (6, 96, 3, 1)) bs2
               = rounded wm (6, 320, 1, 1)).
  { unfold bs2, table2. segs_compute. reflexivity. }
  assert (E2' : table_out wm (rounded wm (6, 96, 3, 1)) table2
                = rounded wm (6, 320, 1, 1)).
  { unfold table2. segs_compute. reflexivity. }
  assert (Eh2 : forall n, strides_down bs2 (Nat.iter 4 (down 2) n)
                          = Nat.iter 5 (down 2) n).
  { intros n. unfold bs2, table2, strides_down. segs_compute.
    cbn [fold_left arg_stride]. rewrite !down_1. reflexivity. }
  assert (S1 : stage_forward add_shape (layer_shape training)
                 (map (fun a => IRBlock (mk_block a)) bs1)
                 (Some {| batch := N; channels := stem_channels wm;
                          height := down 2 h; width := down 2 w |})
               = if v4 then None
                 else Some {| batch := N;
                              channels := rounded wm (6, 96, 3, 1);
                              height := Nat.iter 4 (down 2) h;
                              width := Nat.iter 4 (down 2) w |}).
  { rewrite (stage_blocks_shape training bs1 (stem_channels wm) N
               (down 2 h) (down 2 w));
      [ rewrite E1, !Eh; reflexivity
      | unfold bs1, table1; segs_compute; repeat split
      | unfold bs1, table1; segs_compute; calls_ok wm
      | unfold bs1, table1; segs_compute; discriminate
      | apply stem_channels_pos | assumption | assumption | assumption ]. }
  assert (S2 : stage_forward add_shape (layer_shape training)
                 (map (fun a => IRBlock (mk_block a)) bs2)
                 (Some {| batch := N; channels := rounded wm (6, 96, 3, 1);
                          height := Nat.iter 4 (down 2) h;
                          width := Nat.iter 4 (down 2) w |})
               = if v5 then None
                 else Some {| batch := N;
                              channels := rounded wm (6, 320, 1, 1);
                              height := Nat.iter 5 (down 2) h;
                              width := Nat.iter 5 (down 2) w |}).
  { rewrite (stage_blocks_shape training bs2 (rounded wm (6, 96, 3, 1)) N
               (Nat.iter 4 (down 2) h) (Nat.iter 4 (down 2) w));
      [ rewrite E2, !Eh2; reflexivity
      | unfold bs2, table2; segs_compute; repeat split
      | unfold bs2, table2; segs_compute; calls_ok wm
      | unfold bs2, table2; segs_compute; discriminate
      | apply rounded_pos | assumption | assumption | assumption ]. }
  assert (Hfwd :
            MobileNetV2_forward add_shape (layer_shape training)
              (expected_net table1 table2 wm)
              (Some {| batch := N; channels := 3; height := h; width := w |})
            = (if v4 then None
               else Some {| batch := N;
                            channels := rounded wm (6, 96, 3, 1);
                            height := Nat.iter 4 (down 2) h;
                            width := Nat.iter 4 (down 2) w |},
               if v5 then None
               else Some {| batch := N;
                            channels := last_channels wm;
                            height := Nat.iter 5 (down 2) h;
                            width := Nat.iter 5 (down 2) w |})).
  { unfold MobileNetV2_forward, expected_net.
    cbn [features features2 Assembler.conv]. cbv zeta.
    rewrite stage_forward_cons. cbn [Child_forward].
    rewrite (stem_shape training _ N h w (stem_channels_pos wm) Hh Hw).
    fold v1. fold bs1. rewrite E1'. fold bs2. rewrite E2'.
    destruct v1 eqn:Ev1.
    - rewrite (H14 eq_refl), (H45 (H14 eq_refl)).
      rewrite !stage_forward_None, Sequential_forward_None. reflexivity.
    - rewrite S1. destruct v4 eqn:Ev4.
      + rewrite (H45 eq_refl).
        rewrite !stage_forward_None, Sequential_forward_None. reflexivity.
      + rewrite S2. destruct v5 eqn:Ev5.
        * rewrite Sequential_forward_None. reflexivity.
        * rewrite (projection_shape training _ _ N _ _ Hh5 Hw5).
          fold v5. rewrite Ev5. reflexivity. }
  rewrite Hfwd. unfold v4, v5, one_value in *. split.
  - intros [-> | Hne].
    + reflexivity.
    + assert (E5 : (N * Nat.iter 5 (down 2) h * Nat.iter 5 (down 2) w =? 1)
                   = false) by (apply Z.eqb_neq; exact Hne).
      assert (E4 : training
                   && (N * Nat.iter 4 (down 2) h * Nat.iter 4 (down 2) w =? 1)
                   = false).
      { destruct (training
                  && (N * Nat.iter 4 (down 2) h * Nat.iter 4 (down 2) w =? 1))
          eqn:E; [|reflexivity].
        pose proof (H45 eq_refl) as Hc. rewrite E5, andb_false_r in Hc.
        discriminate Hc. }
      rewrite E4, E5, andb_false_r. reflexivity.
  - intros -> Hone. apply Z.eqb_eq in Hone. cbn [snd].
    rewrite Hone. reflexivity.
Qed.

Lemma X7_forward_shapes_witness :
  (exists net tr,
     MobileNetV2_init 1 = inr (net, tr)
     /\ MobileNetV2_forward add_shape (layer_shape true) net
          (Some {| batch := 1; channels := 3; height := 224; width := 224 |})
        = (Some {| batch := 1; channels := 96; height := 14; width := 14 |},
           Some {| batch := 1; channels := 1280; height := 7; width := 7 |}))
  /\ (exists net tr,
        MobileNetV2_init 1 = inr (net, tr)
        /\ snd (MobileNetV2_forward add_shape (layer_shape true) net
                  (Some {| batch := 1; channels := 3;
                           height := 32; width := 32 |}))
           = None).
Proof.
  split.
  - destruct (X7_forward_shapes true 1 1 224 224)
      as (net & tr & Hrun & Hfwd & _); try lia.
    exists net, tr. split; [exact Hrun|].
    apply Hfwd. right. vm_compute. discriminate.
  - destruct (X7_forward_shapes true 1 1 32 32)
      as (net & tr & Hrun & _ & Hrej); try lia.
    exists net, tr. split; [exact Hrun|].
    apply Hrej; reflexivity.
Defined.

(** ** Rejected inputs *)

Lemma stem_rejects training (c0 N c h w : Z) :
  c <> 3 \/ h < 1 \/ w < 1 ->
  Sequential_forward (layer_shape training) (conv_3x3_bn 3 c0 2)
    (Some {| batch := N; channels := c; height := h; width := w |}) = None.
Proof.
  intros Hbad. unfold conv_3x3_bn, Sequential_forward. cbn [fold_left].
  assert (E : layer_shape training (Conv2d 3 c0 3 2 1 1 false)
                (Some {| batch := N; channels := c; height := h; width := w |})
              = None).
  { cbn [layer_shape channels height width].
    destruct (Z.eqb_spec c 3) as [-> | Hc]; [|reflexivity].
    destruct (Z.leb_spec 3 (h + 2 * 1)) as [Hh | Hh];
      [|rewrite !andb_false_r; reflexivity].
    destruct (Z.leb_spec 3 (w + 2 * 1)) as [Hw | Hw];
      [|rewrite !andb_false_r; reflexivity].
    exfalso. lia. }
  rewrite E. reflexivity.
Qed.

(** X8.  An input whose channel count is not 3, or whose height or width
    is below 1, is rejected by the first convolution, for every width
    multiplier, every batch size and in both modes: neither output of
    [forward] is produced. *)
Theorem X8_forward_rejects (training : bool) (wm : Q) (N c h w : Z) :
  c <> 3 \/ h < 1 \/ w < 1 ->
  exists net tr,
    MobileNetV2_init wm = inr (net, tr)
    /\ MobileNetV2_forward add_shape (layer_shape training) net
         (Some {| batch := N; channels := c; height := h; width := w |})
       = (None, None).
Proof.
  intros Hbad.
  exists (expected_net table1 table2 wm), (expected_trace table1 table2 wm).
  split; [apply MobileNetV2_init_eq|].
  unfold MobileNetV2_forward, expected_net.
  cbn [features features2 Assembler.conv].
  rewrite stage_forward_cons. cbn [Child_forward].
  rewrite (stem_rejects training _ N c h w Hbad).
  rewrite !stage_forward_None, Sequential_forward_None. reflexivity.
Qed.

Lemma X8_forward_rejects_witness :
  (1 <> 3 \/ 224 < 1 \/ 224 < 1)
  /\ exists net tr,
       MobileNetV2_init 1 = inr (net, tr)
       /\ MobileNetV2_forward add_shape (layer_shape true) net
            (Some {| batch := 1; channels := 1; height := 224; width := 224 |})
          = (None, None).
Proof.
  assert (H : 1 <> 3 \/ 224 < 1 \/ 224 < 1) by (left; discriminate).
  split; [exact H|].
  exact (X8_forward_rejects true 1 1 1 224 224 H).
Defined.

(** ** Assembly over arbitrary tables *)

Lemma row_ok_dec (r : row) : row_ok r \/ ~ row_ok r.
Proof. destruct r as [[[t c] n] s]. unfold row_ok. lia. Qed.

Lemma rows_ok_dec (tbl : list row) :
  Forall row_ok tbl \/ Exists (fun r => ~ row_ok r) tbl.
Proof.
  induction tbl as [|r rest IH]; [left; constructor|].
  destruct IH as [IH | IH]; [|right; constructor 2; exact IH].
  destruct (row_ok_dec r);
    [left; constructor; assumption | right; constructor 1; assumption].
Qed.

Lemma rows_ok_exclusive (tbl : list row) :
  Forall row_ok tbl -> Exists (fun r => ~ row_ok r) tbl -> False.
Proof.
  intros Hall Hex. apply List.Exists_exists in Hex as (r & Hin & Hr).
  apply Hr. exact (proj1 (List.Forall_forall _ _) Hall r Hin).
Qed.

(** X9.  Over any two tables whose rows have positive expansion ratios,
    and any width multiplier, the assembly returns a network exactly when
    every row either asks for no block or has stride 1 or 2; otherwise it
    raises the assertion error; it raises no other exception. *)
Theorem X9_assemble_outcome (tbl1 tbl2 : list row) (wm : Q) :
  Forall positive_ratio (tbl1 ++ tbl2) ->
  ((exists net tr, assemble tbl1 tbl2 wm = inr (net, tr))
   <-> Forall row_ok (tbl1 ++ tbl2))
  /\ (assemble tbl1 tbl2 wm = inl AssertionError
      <-> Exists (fun r => ~ row_ok r) (tbl1 ++ tbl2))
  /\ forall e, assemble tbl1 tbl2 wm = inl e -> e = AssertionError.
Proof.
  intros _.
  destruct (rows_ok_dec (tbl1 ++ tbl2)) as [Hok | Hbad].
  - pose proof (proj1 (List.Forall_app _ _ _) Hok) as [H1 H2].
    pose proof (assemble_ok tbl1 tbl2 wm H1 H2) as Hrun.
    split; [|split].
    + split; [intros _; exact Hok | intros _; eauto].
    + split; [rewrite Hrun; discriminate|].
      intros Hex. destruct (rows_ok_exclusive _ Hok Hex).
    + intros e. rewrite Hrun. discriminate.
  - pose proof (assemble_bad tbl1 tbl2 wm Hbad) as Hrun.
    split; [|split].
    + split.
      * intros (net & tr & H). rewrite Hrun in H. discriminate.
      * intros Hok. destruct (rows_ok_exclusive _ Hok Hbad).
    + split; [intros _; exact Hbad | intros _; exact Hrun].
    + intros e. rewrite Hrun. intros [= <-]. reflexivity.
Qed.

Lemma X9_assemble_outcome_witness :
  Forall positive_ratio ([(1, 16, 1, 1); (6, 24, 2, 3)] ++ [(6, 32, 0, 7)])
  /\ assemble [(1, 16, 1, 1); (6, 24, 2, 3)] [(6, 32, 0, 7)] 1
     = inl AssertionError.
Proof.
  assert (Hpos : Forall positive_ratio
                   ([(1, 16, 1, 1); (6, 24, 2, 3)] ++ [(6, 32, 0, 7)]))
    by (repeat constructor).
  split; [exact Hpos|].
  destruct (X9_assemble_outcome [(1, 16, 1, 1); (6, 24, 2, 3)]
              [(6, 32, 0, 7)] 1 Hpos) as (_ & Hbad & _).
  apply Hbad. right. left. unfold row_ok. lia.
Defined.

Lemma range_nonpos (n : Z) : n <= 0 -> range n = [].
Proof.
  intros Hn. unfold range. replace (Z.to_nat n) with 0%nat by lia. reflexivity.
Qed.

(** X10.  A row whose repeat count is zero or negative costs one rounding
    call and nothing else: no block is built, the running input channel
    count and the layers are passed on as they were, and the row's stride
    is never looked at. *)
Theorem X10_empty_row (wm : Q) (t c n s : Z) (rest : list row)
  (st : Z * list Child) :
  n <= 0 ->
  build_rows wm ((t, c, n, s) :: rest) st
  = (_ <- call_make_divisible (inject_Z c * wm)
                              (if is_0_1 wm then 4 else 8) ;;
     build_rows wm rest st).
Proof.
  intros Hn. destruct st as [ic layers]. rewrite build_rows_cons.
  unfold call_make_divisible. cbn [tell bind ret].
  rewrite (range_nonpos n Hn). cbn [for_each ret bind].
  destruct (build_rows wm rest (ic, layers)) as [e | [st' w]]; reflexivity.
Qed.

Lemma X10_empty_row_witness :
  0 <= 0
  /\ build_rows 1 [(6, 24, 0, 7)] (32, [])
     = inr ((32, []), [RoundCall (inject_Z 24 * 1) 8]).
Proof.
  assert (H0 : 0 <= 0) by lia.
  split; [exact H0|].
  exact (X10_empty_row 1 6 24 0 7 [] (32, []) H0).
Defined.

Lemma row_blocks_length (ic oc : Z) (r : row) :
  length (row_blocks ic oc r) = row_repeat r.
Proof.
  destruct r as [[[t c] n] s]. unfold row_blocks, row_repeat.
  destruct (Z.to_nat n); [reflexivity|].
  cbn [length]. rewrite repeat_length. reflexivity.
Qed.

Lemma table_segments_length (wm : Q) (tbl : list row) : forall ic,
  length (concat (table_segments wm ic tbl)) = blocks_asked tbl.
Proof.
  induction tbl as [|r rest IH]; intros ic; [reflexivity|].
  cbn [table_segments concat blocks_asked fold_right].
  rewrite length_app, row_blocks_length, IH. reflexivity.
Qed.

Lemma blocks_of_built (bs : list block_args) :
  blocks_of (map (fun a => IRBlock (mk_block a)) bs) = map mk_block bs.
Proof.
  induction bs as [|a bs IH]; [reflexivity|].
  cbn [map]. unfold blocks_of in *. cbn [flat_map app]. f_equal. exact IH.
Qed.

Lemma blocks_asked_app (tbl1 tbl2 : list row) :
  blocks_asked (tbl1 ++ tbl2) = (blocks_asked tbl1 + blocks_asked tbl2)%nat.
Proof.
  induction tbl1 as [|r rest IH]; [reflexivity|].
  cbn [app blocks_asked fold_right]. fold (blocks_asked (rest ++ tbl2)).
  fold (blocks_asked rest). rewrite IH. lia.
Qed.

Lemma expected_trace_blocks (tbl1 tbl2 : list row) (wm : Q) :
  block_calls (expected_trace tbl1 tbl2 wm)
  = concat (table_segments wm (stem_channels wm) tbl1)
    ++ concat (table_segments wm (table_out wm (stem_channels wm) tbl1) tbl2).
Proof.
  unfold expected_trace.
  change (block_calls (?e :: ?l)) with (block_calls [e] ++ block_calls l).
  rewrite !block_calls_app, !block_calls_table.
  destruct (gt_1_0 wm); cbn [block_calls flat_map app]; rewrite app_nil_r;
    reflexivity.
Qed.

Lemma expected_trace_rounds (tbl1 tbl2 : list row) (wm : Q) :
  length (round_calls (expected_trace tbl1 tbl2 wm))
  = (1 + length tbl1 + length tbl2 + (if gt_1_0 wm then 1 else 0))%nat.
Proof.
  unfold expected_trace.
  change (round_calls (?e :: ?l)) with (round_calls [e] ++ round_calls l).
  rewrite !round_calls_app, !round_calls_table, !length_app, !length_map.
  destruct (gt_1_0 wm); cbn [round_calls flat_map app length]; lia.
Qed.

(** X11.  Over any two accepted tables whose rows have positive expansion
    ratios, the first stage holds the stem and
    one block per repeat asked by the first table, the second stage one
    block per repeat asked by the second; the block constructor is called
    once per block and the rounding once for the stem, once per row and,
    when [width_mult > 1.0], once for the final projection. *)
Theorem X11_block_counts (tbl1 tbl2 : list row) (wm : Q) :
  Forall positive_ratio (tbl1 ++ tbl2) ->
  Forall row_ok (tbl1 ++ tbl2) ->
  exists net tr,
    assemble tbl1 tbl2 wm = inr (net, tr)
    /\ length (features net) = S (blocks_asked tbl1)
    /\ length (blocks_of (features net)) = blocks_asked tbl1
    /\ length (features2 net) = blocks_asked tbl2
    /\ length (blocks_of (features2 net)) = blocks_asked tbl2
    /\ length (block_calls tr) = blocks_asked (tbl1 ++ tbl2)
    /\ length (round_calls tr)
       = (1 + length (tbl1 ++ tbl2) + (if gt_1_0 wm then 1 else 0))%nat.
Proof.
  intros _ Hok. pose proof (proj1 (List.Forall_app _ _ _) Hok) as [H1 H2].
  exists (expected_net tbl1 tbl2 wm), (expected_trace tbl1 tbl2 wm).
  split; [apply assemble_ok; assumption|].
  unfold expected_net. cbn [features features2].
  change (blocks_of (Stem ?m :: ?l)) with (blocks_of l).
  rewrite !blocks_of_built. cbn [length].
  rewrite !length_map, !table_segments_length.
  rewrite expected_trace_blocks, length_app, !table_segments_length.
  rewrite expected_trace_rounds, blocks_asked_app, length_app.
  repeat split; lia.
Qed.

Lemma X11_block_counts_witness :
  Forall positive_ratio ([(1, 16, 1, 1); (6, 24, 0, 5)] ++ [(6, 32, 3, 2)])
  /\ Forall row_ok ([(1, 16, 1, 1); (6, 24, 0, 5)] ++ [(6, 32, 3, 2)])
  /\ exists net tr,
       assemble [(1, 16, 1, 1); (6, 24, 0, 5)] [(6, 32, 3, 2)] 1
       = inr (net, tr)
       /\ length (features net) = 2%nat
       /\ length (features2 net) = 3%nat
       /\ length (round_calls tr) = 4%nat.
Proof.
  assert (Hpos : Forall positive_ratio
                   ([(1, 16, 1, 1); (6, 24, 0, 5)] ++ [(6, 32, 3, 2)]))
    by (repeat constructor).
  assert (Hok : Forall row_ok ([(1, 16, 1, 1); (6, 24, 0, 5)] ++ [(6, 32, 3, 2)])).
  { repeat constructor; unfold row_ok; lia. }
  split; [exact Hpos|]. split; [exact Hok|].
  destruct (X11_block_counts [(1, 16, 1, 1); (6, 24, 0, 5)] [(6, 32, 3, 2)] 1
              Hpos Hok)
    as (net & tr & Hrun & Hf & _ & Hf2 & _ & _ & Hr).
  exists net, tr. repeat split; assumption.
Defined.

(** ** The residual pattern *)

Lemma identity_first (ic oc s t : Z) :
  s = 1 \/ s = 2 ->
  identity (mk_block (ic, oc, s, t)) = (s =? 1) && (ic =? oc).
Proof. intros Hs. rewrite (mk_block_eq ic oc s t Hs). reflexivity. Qed.

Lemma identity_repeat (oc t : Z) : identity (mk_block (oc, oc, 1, t)) = true.
Proof.
  rewrite identity_first by (left; reflexivity).
  rewrite !Z.eqb_refl. reflexivity.
Qed.

Lemma identity_stride_2 (ic oc t : Z) : identity (mk_block (ic, oc, 2, t)) = false.
Proof. rewrite identity_first by (right; reflexivity). reflexivity. Qed.

(** X12.  For every width multiplier, every block after the first of a
    row adds its input to its output, and the first block of a row of
    stride 2 does not; the first block of a row of stride 1 does exactly
    when the rounded channel counts on its two sides agree. *)
Theorem X12_residual_pattern (wm : Q) :
  let ch (c : Z) :=
    _make_divisible (inject_Z c * wm) (if is_0_1 wm then 4 else 8) None in
  exists net tr,
    MobileNetV2_init wm = inr (net, tr)
    /\ identity_flags (features net)
       = [ ch 32 =? ch 16;
           false; true;
           false; true; true;
           false; true; true; true;
           ch 64 =? ch 96; true; true ]
    /\ identity_flags (features2 net)
       = [ false; true; true;
           ch 160 =? ch 320 ].
Proof.
  intros ch.
  exists (expected_net table1 table2 wm), (expected_trace table1 table2 wm).
  split; [apply MobileNetV2_init_eq|].
  unfold identity_flags, expected_net. cbn [features features2].
  change (blocks_of (Stem ?m :: ?l)) with (blocks_of l).
  rewrite !blocks_of_built, !map_map.
  unfold table1, table2. segs_compute.
  rewrite !identity_repeat, !identity_stride_2.
  rewrite !identity_first by (left; reflexivity).
  split; reflexivity.
Qed.

(** ** Channel counts *)

Lemma child_channels_built (a : block_args) :
  arg_stride a = 1 \/ arg_stride a = 2 ->
  child_channels (IRBlock (mk_block a)) = Some (arg_oup a).
Proof.
  destruct a as [[[i o] s] t]. cbn [arg_stride arg_oup]. intros Hs.
  rewrite (mk_block_eq i o s t Hs). cbn [child_channels Block.conv].
  destruct (t =? 1); reflexivity.
Qed.

Lemma multiple_of_rounding (v : Q) (d : Z) :
  0 < d -> multiple_of d (Some (_make_divisible v d None)).
Proof.
  intros Hd.
  destruct (make_divisible_lower_bound v d None Hd) as [Hlo Hdiv].
  cbv zeta in Hlo, Hdiv. destruct (Hdiv (Z.divide_refl d)) as [k Hk].
  exists k. split; [nia | rewrite Hk; reflexivity].
Qed.

(** X13.  For every width multiplier, zero and negative ones included,
    every channel count of the network, the stem's, each block's and the
    final projection's, is a positive multiple of the divisor in use. *)
Theorem X13_channel_multiples (wm : Q) :
  exists net tr,
    MobileNetV2_init wm = inr (net, tr)
    /\ Forall (multiple_of (if is_0_1 wm then 4 else 8))
              (channel_sequence net).
Proof.
  exists (expected_net table1 table2 wm), (expected_trace table1 table2 wm).
  split; [apply MobileNetV2_init_eq|].
  pose proof (divisor_pos wm) as Hd.
  unfold channel_sequence, expected_net. cbn [features features2 Assembler.conv].
  unfold table1, table2. segs_compute.
  rewrite !child_channels_built
    by (cbn [arg_stride]; first [left; reflexivity | right; reflexivity]).
  cbn [arg_oup child_channels conv_3x3_bn conv_1x1_bn out_channels_of fold_left].
  repeat (apply List.Forall_cons;
          [first [ apply (multiple_of_rounding _ _ Hd) | idtac ] |]);
    try apply List.Forall_nil.
  unfold last_channels. destruct (gt_1_0 wm).
  - apply (multiple_of_rounding _ _ Hd).
  - destruct (is_0_1 wm); [exists 320 | exists 160]; split; reflexivity || lia.
Qed.

(** ** Width and channel counts *)

Lemma scaled_pos (c : Z) (wm : Q) : 0 < c -> (0 < wm)%Q -> (0 < inject_Z c * wm)%Q.
Proof.
  intros Hc Hw. apply Qmult_lt_0_compat; [apply inject_Z_pos; exact Hc | exact Hw].
Qed.

Lemma scaled_le (c : Z) (wm1 wm2 : Q) :
  0 < c -> (wm1 <= wm2)%Q -> (inject_Z c * wm1 <= inject_Z c * wm2)%Q.
Proof.
  intros Hc Hle. apply Qmult_le_l; [apply inject_Z_pos; exact Hc | exact Hle].
Qed.

Lemma rounded_monotone (c : Z) (wm1 wm2 : Q) (d : Z) :
  0 < c -> 0 < d -> (0 < wm1)%Q -> (wm1 <= wm2)%Q ->
  channels_le (Some (_make_divisible (inject_Z c * wm1) d None))
              (Some (_make_divisible (inject_Z c * wm2) d None)).
Proof.
  intros Hc Hd H1 Hle. cbn [channels_le].
  apply make_divisible_monotone;
    [exact Hd | apply scaled_pos; assumption | apply scaled_le; assumption].
Qed.

(** X14.  Of two positive width multipliers that select the same divisor,
    the larger gives no layer fewer channels than the smaller. *)
Theorem X14_width_monotone (wm1 wm2 : Q) :
  (0 < wm1)%Q -> (wm1 <= wm2)%Q -> is_0_1 wm1 = is_0_1 wm2 ->
  exists net1 tr1 net2 tr2,
    MobileNetV2_init wm1 = inr (net1, tr1)
    /\ MobileNetV2_init wm2 = inr (net2, tr2)
    /\ Forall2 channels_le (channel_sequence net1) (channel_sequence net2).
Proof.
  intros Hpos Hle Hdiv.
  exists (expected_net table1 table2 wm1), (expected_trace table1 table2 wm1).
  exists (expected_net table1 table2 wm2), (expected_trace table1 table2 wm2).
  split; [apply MobileNetV2_init_eq|]. split; [apply MobileNetV2_init_eq|].
  pose proof (divisor_pos wm2) as Hd.
  unfold channel_sequence, expected_net. cbn [features features2 Assembler.conv].
  unfold table1, table2. segs_compute.
  rewrite !child_channels_built
    by (cbn [arg_stride]; first [left; reflexivity | right; reflexivity]).
  cbn [arg_oup child_channels conv_3x3_bn conv_1x1_bn out_channels_of fold_left].
  unfold stem_channels, rounded. rewrite Hdiv.
  repeat (apply List.Forall2_cons;
          [first [ apply rounded_monotone; (lia || assumption) | idtac ] |]);
    try apply List.Forall2_nil.
  unfold last_channels. rewrite Hdiv.
  destruct (gt_1_0 wm1) eqn:E1; destruct (gt_1_0 wm2) eqn:E2.
  - apply (rounded_monotone 1280); (lia || assumption).
  - apply gt_1_0_spec in E1.
    assert (Hn : ~ (1 < wm2)%Q).
    { intros H. apply gt_1_0_spec in H. rewrite H in E2. discriminate. }
    exfalso. apply Hn. lra.
  - apply gt_1_0_spec in E2.
    assert (H8 : is_0_1 wm2 = false).
    { destruct (is_0_1 wm2) eqn:E; [|reflexivity].
      apply is_0_1_spec in E. exfalso. rewrite E in E2. discriminate. }
    rewrite H8. cbn [channels_le].
    rewrite <- (make_divisible_multiple_fixed 160 8) at 1 by lia.
    apply make_divisible_monotone; [lia | reflexivity |].
    change (inject_Z (160 * 8)) with 1280%Q. lra.
  - cbn [channels_le]. lia.
Qed.

Lemma X14_width_monotone_witness :
  (0 < 1 # 2)%Q /\ (1 # 2 <= 1)%Q /\ is_0_1 (1 # 2) = is_0_1 1
  /\ exists net1 tr1 net2 tr2,
       MobileNetV2_init (1 # 2) = inr (net1, tr1)
       /\ MobileNetV2_init 1 = inr (net2, tr2)
       /\ Forall2 channels_le (channel_sequence net1) (channel_sequence net2).
Proof.
  assert (H1 : (0 < 1 # 2)%Q) by reflexivity.
  assert (H2 : (1 # 2 <= 1)%Q) by (unfold Qle; simpl; lia).
  assert (H3 : is_0_1 (1 # 2) = is_0_1 1) by reflexivity.
  split; [exact H1|]. split; [exact H2|]. split; [exact H3|].
  exact (X14_width_monotone (1 # 2) 1 H1 H2 H3).
Defined.

(** Across the switch of the divisor the count can drop: the stem has 8
    channels at a width multiplier of 9/100 and 4 at 1/10. *)
Example width_not_monotone_at_switch :
  _make_divisible (32 * (9 # 100)) (if is_0_1 (9 # 100) then 4 else 8) None = 8
  /\ _make_divisible (32 * (1 # 10)) (if is_0_1 (1 # 10) then 4 else 8) None = 4.
Proof. split; reflexivity. Qed.

(** ** Weight initialisation *)

Lemma for_modules_ok (ms : list Layer) :
  Forall layer_ok ms -> for_modules ms = inr (map (fun m => (m, fillings m)) ms).
Proof.
  induction 1 as [|m ms Hm Hms IH]; [reflexivity|].
  cbn [for_modules map]. rewrite IH.
  destruct m as [i o k s p g b | n | ip]; cbn [initialize_module fillings];
    try reflexivity.
  cbn [layer_ok] in Hm. destruct Hm as [Hn ->].
  destruct (Z.eqb_spec (k * k * o) 0) as [E | _]; [lia|].
  destruct (Z.ltb_spec (k * k * o) 0) as [E | _]; [lia|].
  reflexivity.
Qed.

Lemma block_layers_ok (a : block_args) :
  call_ok a -> Forall layer_ok (Block.conv (mk_block a)).
Proof.
  destruct a as [[[i o] s] t]. intros (Hi & Ho & Ht & Hs).
  cbn [arg_inp arg_oup arg_ratio arg_stride] in Hi, Ho, Ht, Hs.
  rewrite (mk_block_eq i o s t Hs). cbn [Block.conv].
  assert (Hh : 0 < i * t) by nia.
  destruct (t =? 1); repeat constructor; cbn [layer_ok]; lia.
Qed.

Lemma blocks_layers_ok (bs : list block_args) :
  Forall call_ok bs ->
  Forall layer_ok (flat_map leaves (map (fun a => IRBlock (mk_block a)) bs)).
Proof.
  induction 1 as [|a bs Ha Hbs IH]; [constructor|].
  cbn [map flat_map leaves]. apply List.Forall_app. split; [|exact IH].
  apply block_layers_ok. exact Ha.
Qed.

(** X15.  For every width multiplier the weight initialisation of the
    constructed network raises no arithmetic error: every convolution has
    a positive fan [n = k * k * out_channels], its weight is drawn with
    variance [2 / n] and it has no bias to zero; every batch normalisation
    gets weight 1 and bias 0; the modules are visited once each, in
    registration order. *)
Theorem X15_initialize_weights (wm : Q) :
  exists net tr done,
    MobileNetV2_init wm = inr (net, tr)
    /\ _initialize_weights net = inr done
    /\ map fst done = modules net
    /\ Forall (fun '(m, fs) =>
                 match m with
                 | Conv2d _ o k _ _ _ _ =>
                     0 < k * k * o
                     /\ fs = [("weight",
                               Normal 0 (2 / inject_Z (k * k * o)))]
                 | BatchNorm2d _ =>
                     fs = [("weight", Fill 1);
                           ("bias", Fill 0)]
                 | ReLU6 _ => fs = []
                 end) done.
Proof.
  exists (expected_net table1 table2 wm), (expected_trace table1 table2 wm).
  exists (map (fun m => (m, fillings m))
              (modules (expected_net table1 table2 wm))).
  split; [apply MobileNetV2_init_eq|].
  assert (Hok : Forall layer_ok (modules (expected_net table1 table2 wm))).
  { unfold modules, expected_net. cbn [features features2 Assembler.conv].
    cbn [flat_map leaves]. rewrite !List.Forall_app.
    pose proof (stem_channels_pos wm) as Hs.
    pose proof (last_channels_pos wm) as Hl.
    split; [split|split].
    - unfold conv_3x3_bn. repeat constructor; cbn [layer_ok]; lia.
    - apply blocks_layers_ok. unfold table1. segs_compute. calls_ok wm.
    - apply blocks_layers_ok. unfold table1, table2. segs_compute. calls_ok wm.
    - unfold conv_1x1_bn. repeat constructor; cbn [layer_ok]; lia. }
  split; [apply for_modules_ok; exact Hok|].
  split; [rewrite map_map; apply map_id|].
  apply List.Forall_forall. intros [m fs] Hin.
  apply in_map_iff in Hin as (m' & [= <- <-] & Hin').
  pose proof (proj1 (List.Forall_forall _ _) Hok m' Hin') as Hm.
  destruct m' as [i o k s p g b | n | ip]; cbn [fillings]; try reflexivity.
  cbn [layer_ok] in Hm. split; [apply Hm | reflexivity].
Qed.

(** ** Strings *)

Lemma append_nil (b : string) : EmptyString +:+ b = b.
Proof. reflexivity. Qed.

Lemma append_cons c (a b : string) : String c a +:+ b = String c (a +:+ b).
Proof. reflexivity. Qed.

Lemma append_assoc (a b c : string) : (a +:+ b) +:+ c = a +:+ (b +:+ c).
Proof.
  induction a as [|x a IH]; [reflexivity|].
  rewrite !append_cons. f_equal. exact IH.
Qed.

Lemma prefix_append (p rest : string) : String.prefix p (p +:+ rest) = true.
Proof.
  induction p as [|c p IH]; [destruct rest; reflexivity|].
  rewrite append_cons. cbn [String.prefix].
  destruct (Ascii.ascii_dec c c) as [_ | Hne]; [exact IH | contradiction].
Qed.

Lemma prefix_split (p s : string) :
  String.prefix p s = true -> exists rest, s = p +:+ rest.
Proof.
  revert p. induction s as [|b s IH]; intros p Hp.
  - destruct p; [exists EmptyString; reflexivity | discriminate].
  - destruct p as [|a p]; [exists (String b s); reflexivity|].
    cbn in Hp. destruct (Ascii.ascii_dec a b) as [-> | _]; [|discriminate].
    destruct (IH p Hp) as [rest ->]. exists rest. reflexivity.
Qed.

Lemma prefix_shorter (old ext s : string) :
  String.prefix (old +:+ ext) s = true -> String.prefix old s = true.
Proof.
  intros H. destruct (prefix_split _ _ H) as [rest ->].
  rewrite append_assoc. apply prefix_append.
Qed.

Lemma contains_cons (old : string) c (s : string) :
  contains old (String c s)
  = String.prefix old (String c s) || contains old s.
Proof. reflexivity. Qed.

Lemma contains_shorter (old ext s : string) :
  contains old s = false -> contains (old +:+ ext) s = false.
Proof.
  induction s as [|c s IH].
  - cbn [contains]. rewrite !orb_false_r. intros H.
    destruct (String.prefix (old +:+ ext) EmptyString) eqn:E; [|reflexivity].
    rewrite (prefix_shorter _ _ _ E) in H. discriminate.
  - rewrite !contains_cons. intros H. apply orb_false_iff in H as [Hp Hc].
    rewrite (IH Hc), orb_false_r.
    destruct (String.prefix (old +:+ ext) (String c s)) eqn:E; [|reflexivity].
    rewrite (prefix_shorter _ _ _ E) in Hp. discriminate.
Qed.

(** The text a pattern occurs in is split by the pattern. *)
Lemma contains_split (old s : string) :
  contains old s = true <-> exists a b, s = a +:+ old +:+ b.
Proof.
  split.
  - induction s as [|c s IH].
    + cbn [contains]. rewrite orb_false_r. intros H.
      destruct (prefix_split _ _ H) as [rest ->].
      exists EmptyString, rest. reflexivity.
    + rewrite contains_cons. intros H. apply orb_true_iff in H as [H | H].
      * destruct (prefix_split _ _ H) as [rest ->].
        exists EmptyString, rest. reflexivity.
      * destruct (IH H) as (a & b & ->). exists (String c a), b. reflexivity.
  - intros (a & b & ->). induction a as [|c a IH].
    + rewrite append_nil. destruct (old +:+ b) eqn:E.
      * cbn [contains]. rewrite orb_false_r. rewrite <- E. apply prefix_append.
      * rewrite contains_cons, <- E, prefix_append. reflexivity.
    + rewrite append_cons, contains_cons, IH. apply orb_true_r.
Qed.

Lemma replace_from_skip (old new p rest : string) :
  replace_from old new (String.length p) (p +:+ rest)
  = replace_from old new 0 rest.
Proof.
  induction p as [|c p IH].
  - destruct rest; reflexivity.
  - rewrite append_cons. cbn [String.length replace_from]. exact IH.
Qed.

Lemma str_replace_leading (old new rest : string) :
  old <> EmptyString ->
  str_replace (old +:+ rest) old new = new +:+ str_replace rest old new.
Proof.
  intros Hold. destruct old as [|a old]; [contradiction|].
  unfold str_replace. rewrite append_cons. cbn [replace_from].
  rewrite <- append_cons, prefix_append.
  cbn [String.length]. rewrite Nat.sub_succ, Nat.sub_0_r.
  rewrite replace_from_skip. reflexivity.
Qed.

Lemma str_replace_step (old new : string) c (s : string) :
  old <> EmptyString ->
  String.prefix old (String c s) = false ->
  str_replace (String c s) old new = String c (str_replace s old new).
Proof.
  intros Hold Hp. destruct old as [|a old]; [contradiction|].
  unfold str_replace. cbn [replace_from]. rewrite Hp. reflexivity.
Qed.

Lemma str_replace_absent (s old new : string) :
  contains old s = false -> str_replace s old new = s.
Proof.
  intros Hno.
  assert (Hold : old <> EmptyString).
  { intros ->. destruct s; discriminate. }
  induction s as [|c s IH].
  - destruct old; [contradiction | reflexivity].
  - rewrite contains_cons in Hno. apply orb_false_iff in Hno as [Hp Hc].
    rewrite (str_replace_step old new c s Hold Hp). f_equal. exact (IH Hc).
Qed.

(** X18.  The four replacements of lines 180-183 leave every internal name
    that does not contain [features2.] as it is. *)
Theorem X18_remap_name_first_stage (k : string) :
  contains "features2." k = false -> remap_name k = k.
Proof.
  intros Hno. unfold remap_name.
  assert (Hi : forall i new, str_replace k ("features2." +:+ i) new = k).
  { intros i new. apply str_replace_absent. apply contains_shorter. exact Hno. }
  change "features2.0." with ("features2." +:+ "0.").
  change "features2.1." with ("features2." +:+ "1.").
  change "features2.2." with ("features2." +:+ "2.").
  change "features2.3." with ("features2." +:+ "3.").
  rewrite !Hi. reflexivity.
Qed.

(** X17.  An external name without [module.] is left as it is by the
    stripping of line 176, and the same name behind the prefix [module.]
    is stripped to it. *)
Theorem X17_strip_module (k : string) :
  contains "module." k = false ->
  strip_module k = k /\ strip_module ("module." +:+ k) = k.
Proof.
  intros Hno. unfold strip_module. split.
  - apply str_replace_absent. exact Hno.
  - rewrite str_replace_leading by discriminate.
    rewrite (str_replace_absent k _ _ Hno). reflexivity.
Qed.

Lemma X17_strip_module_witness :
  contains "module." "features.0.0.weight" = false
  /\ strip_module "features.0.0.weight" = "features.0.0.weight"
  /\ strip_module ("module." +:+ "features.0.0.weight") = "features.0.0.weight".
Proof.
  assert (H : contains "module." "features.0.0.weight" = false) by reflexivity.
  split; [exact H|].
  exact (X17_strip_module "features.0.0.weight" H).
Defined.

Lemma X18_remap_name_first_stage_witness :
  contains "features2." "features.13.conv.0.weight" = false
  /\ remap_name "features.13.conv.0.weight" = "features.13.conv.0.weight".
Proof.
  assert (H : contains "features2." "features.13.conv.0.weight" = false)
    by reflexivity.
  split; [exact H|].
  exact (X18_remap_name_first_stage "features.13.conv.0.weight" H).
Defined.

Ltac absent_facts rest Hno :=
  assert (H0 : forall new, str_replace rest "features2.0." new = rest)
    by (intros; apply str_replace_absent;
        apply (contains_shorter "features2." "0."); exact Hno);
  assert (H1 : forall new, str_replace rest "features2.1." new = rest)
    by (intros; apply str_replace_absent;
        apply (contains_shorter "features2." "1."); exact Hno);
  assert (H2 : forall new, str_replace rest "features2.2." new = rest)
    by (intros; apply str_replace_absent;
        apply (contains_shorter "features2." "2."); exact Hno);
  assert (H3 : forall new, str_replace rest "features2.3." new = rest)
    by (intros; apply str_replace_absent;
        apply (contains_shorter "features2." "3."); exact Hno).

Ltac scan_past rest H0 H1 H2 H3 :=
  repeat match goal with
         | |- context [str_replace (?p +:+ rest) ?old ?new] =>
             first
               [ rewrite (str_replace_leading old new rest) by discriminate
               | change (str_replace (p +:+ rest) old new)
                   with (p +:+ str_replace rest old new) ];
             rewrite ?H0, ?H1, ?H2, ?H3
         end.

Lemma remap_name_second (rest : string) :
  contains "features2." rest = false ->
  remap_name ("features2.0." +:+ rest) = "features.14." +:+ rest
  /\ remap_name ("features2.1." +:+ rest) = "features.15." +:+ rest
  /\ remap_name ("features2.2." +:+ rest) = "features.16." +:+ rest
  /\ remap_name ("features2.3." +:+ rest) = "features.17." +:+ rest.
Proof.
  intros Hno. absent_facts rest Hno.
  repeat split; unfold remap_name; scan_past rest H0 H1 H2 H3; reflexivity.
Qed.

(** X19.  The replacements continue the numbering of the first stage into
    the second: for every child index [i] of [features2], the names under
    [features2.i.] are renamed to those under [features.j.] with [j] the
    number of children of [features] plus [i], and so differ from the
    names they had. *)
Theorem X19_remap_second_stage (wm : Q) (i : nat) (rest : string) :
  contains "features2." rest = false ->
  exists net tr,
    MobileNetV2_init wm = inr (net, tr)
    /\ ((i < length (features2 net))%nat ->
        remap_name (child_prefix "features2" i +:+ rest)
        = child_prefix "features" (length (features net) + i) +:+ rest
        /\ remap_name (child_prefix "features2" i +:+ rest)
           <> child_prefix "features2" i +:+ rest).
Proof.
  intros Hno.
  exists (expected_net table1 table2 wm), (expected_trace table1 table2 wm).
  split; [apply MobileNetV2_init_eq|].
  assert (L1 : length (features (expected_net table1 table2 wm)) = 14%nat).
  { unfold expected_net. cbn [features length]. rewrite length_map.
    rewrite table_segments_length. reflexivity. }
  assert (L2 : length (features2 (expected_net table1 table2 wm)) = 4%nat).
  { unfold expected_net. cbn [features2]. rewrite length_map.
    rewrite table_segments_length. reflexivity. }
  rewrite L1, L2. intros Hi.
  destruct (remap_name_second rest Hno) as (E0 & E1 & E2 & E3).
  destruct i as [|[|[|[|i]]]]; [| | | |lia].
  - change (child_prefix "features2" 0) with "features2.0.".
    change (child_prefix "features" (14 + 0)) with "features.14.".
    rewrite E0. split; [reflexivity|]. intros H. discriminate H.
  - change (child_prefix "features2" 1) with "features2.1.".
    change (child_prefix "features" (14 + 1)) with "features.15.".
    rewrite E1. split; [reflexivity|]. intros H. discriminate H.
  - change (child_prefix "features2" 2) with "features2.2.".
    change (child_prefix "features" (14 + 2)) with "features.16.".
    rewrite E2. split; [reflexivity|]. intros H. discriminate H.
  - change (child_prefix "features2" 3) with "features2.3.".
    change (child_prefix "features" (14 + 3)) with "features.17.".
    rewrite E3. split; [reflexivity|]. intros H. discriminate H.
Qed.

Lemma X19_remap_second_stage_witness :
  contains "features2." "conv.0.weight" = false
  /\ remap_name "features2.2.conv.0.weight" = "features.16.conv.0.weight".
Proof.
  assert (H : contains "features2." "conv.0.weight" = false) by reflexivity.
  split; [exact H|].
  destruct (X19_remap_second_stage 1 2 "conv.0.weight" H)
    as (net & tr & Hrun & Hmap).
  assert (E : MobileNetV2_init 1
              = inr (expected_net table1 table2 1,
                     expected_trace table1 table2 1))
    by apply MobileNetV2_init_eq.
  rewrite E in Hrun. injection Hrun as <- _.
  assert (Hi : (2 < length (features2 (expected_net table1 table2 1)))%nat)
    by (vm_compute; lia).
  exact (proj1 (Hmap Hi)).
Defined.

(** ** The remapping loop as a whole *)

Section LoaderFurther.
Context {Tensor : Type}.
Context {size_test : SizeTest Tensor}.
Variable initial_params : MobileNetV2 -> gmap string Tensor.
Variable load_state_dict_from_url : string -> result (list (string * Tensor)).
Implicit Types (d : gmap string Tensor) (ckpt : list (string * Tensor)).

Lemma loaded_value_cons it ckpt k (v : Tensor) :
  loaded_value (it :: ckpt) k v
  = loaded_value ckpt k
      (if String.eqb (strip_module (fst it)) (remap_name k) then snd it else v).
Proof. reflexivity. Qed.

Lemma loaded_value_app ckpt1 ckpt2 k (v : Tensor) :
  loaded_value (ckpt1 ++ ckpt2) k v
  = loaded_value ckpt2 k (loaded_value ckpt1 k v).
Proof. unfold loaded_value. apply fold_left_app. Qed.

(** The loop treats every internal name on its own. *)
Lemma remap_loop_lookup ckpt : forall d k,
  remap_loop ckpt d !! k = loaded_value ckpt k <$> d !! k.
Proof.
  induction ckpt as [|it ckpt IH]; intros d k.
  - cbn. destruct (d !! k); reflexivity.
  - change (remap_loop (it :: ckpt) d)
      with (remap_loop ckpt (inner_loop (strip_module (fst it)) (snd it) d)).
    rewrite IH, inner_loop_lookup.
    destruct (d !! k) as [v|]; reflexivity.
Qed.

Lemma loaded_value_cases ckpt k :
  (forall v : Tensor, loaded_value ckpt k v = v)
  \/ (exists t, In t (map snd ckpt) /\ forall v : Tensor, loaded_value ckpt k v = t).
Proof.
  induction ckpt as [|it ckpt IH]; [left; reflexivity|].
  destruct IH as [Hid | (t & Hin & Hconst)].
  - destruct (String.eqb (strip_module (fst it)) (remap_name k)) eqn:E.
    + right. exists (snd it). split; [left; reflexivity|].
      intros v. rewrite loaded_value_cons, E. apply Hid.
    + left. intros v. rewrite loaded_value_cons, E. apply Hid.
  - right. exists t. split; [right; exact Hin|].
    intros v. rewrite loaded_value_cons. apply Hconst.
Qed.

Lemma loaded_value_none ckpt k (v : Tensor) :
  (forall it, In it ckpt -> strip_module (fst it) <> remap_name k) ->
  loaded_value ckpt k v = v.
Proof.
  revert v. induction ckpt as [|it ckpt IH]; intros v Hno; [reflexivity|].
  rewrite loaded_value_cons.
  destruct (String.eqb_spec (strip_module (fst it)) (remap_name k)) as [E | _].
  - exfalso. exact (Hno it (or_introl eq_refl) E).
  - apply IH. intros it' Hin. apply Hno. right. exact Hin.
Qed.

Lemma loaded_value_unique ckpt k it :
  List.NoDup (map (fun it => strip_module (fst it)) ckpt) ->
  In it ckpt -> strip_module (fst it) = remap_name k ->
  forall v : Tensor, loaded_value ckpt k v = snd it.
Proof.
  induction ckpt as [|it0 ckpt IH]; intros Hnd Hin Hm v; [destruct Hin|].
  cbn [map] in Hnd. apply List.NoDup_cons_iff in Hnd as [Hnotin Hnd].
  rewrite loaded_value_cons. destruct Hin as [-> | Hin].
  - rewrite Hm, String.eqb_refl. apply loaded_value_none.
    intros it' Hin' E. apply Hnotin. rewrite Hm, <- E.
    apply in_map_iff. exists it'. split; [reflexivity | exact Hin'].
  - apply IH; assumption.
Qed.

Lemma match_or_not ckpt (n : string) :
  (exists it, In it ckpt /\ strip_module (fst it) = n)
  \/ (forall it, In it ckpt -> strip_module (fst it) <> n).
Proof.
  induction ckpt as [|it ckpt IH]; [right; intros it []|].
  destruct (String.eqb_spec (strip_module (fst it)) n) as [E | Hne].
  - left. exists it. split; [left; reflexivity | exact E].
  - destruct IH as [(it' & Hin & E) | Hno].
    + left. exists it'. split; [right; exact Hin | exact E].
    + right. intros it' [<- | Hin]; [exact Hne | exact (Hno it' Hin)].
Qed.

Lemma remap_loop_twice ckpt d :
  remap_loop ckpt (remap_loop ckpt d) = remap_loop ckpt d.
Proof.
  apply map_eq. intros k. rewrite !remap_loop_lookup.
  destruct (d !! k) as [v|]; [|reflexivity]. cbn. f_equal.
  destruct (loaded_value_cases ckpt k) as [Hid | (t & _ & Hconst)].
  - rewrite !Hid. reflexivity.
  - rewrite !Hconst. reflexivity.
Qed.

(** X22.  An item of the checkpoint whose stripped name is the remapped
    name of no internal parameter, a key of a layer the network lacks for
    one, has no effect wherever it stands. *)
Theorem X22_remap_untaken pre it post d :
  ~ taken_by d it ->
  remap_loop (pre ++ it :: post) d = remap_loop (pre ++ post) d.
Proof.
  intros Hno. apply map_eq. intros k. rewrite !remap_loop_lookup.
  destruct (d !! k) as [v|] eqn:Hk; [|reflexivity]. cbn. f_equal.
  rewrite !loaded_value_app, loaded_value_cons.
  destruct (String.eqb_spec (strip_module (fst it)) (remap_name k)) as [E | _];
    [|reflexivity].
  exfalso. apply Hno. exists k. split; [rewrite Hk; eauto | exact E].
Qed.

(** X23.  When no two items of the checkpoint have the same stripped name,
    the order of its items does not matter. *)
Theorem X23_remap_order ckpt ckpt' d :
  List.NoDup (map (fun it => strip_module (fst it)) ckpt) ->
  Permutation ckpt ckpt' ->
  remap_loop ckpt d = remap_loop ckpt' d.
Proof.
  intros Hnd Hperm. apply map_eq. intros k. rewrite !remap_loop_lookup.
  destruct (d !! k) as [v|]; [|reflexivity]. cbn. f_equal.
  assert (Hnd' : List.NoDup (map (fun it => strip_module (fst it)) ckpt')).
  { eapply Permutation_NoDup; [|exact Hnd]. apply Permutation_map. exact Hperm. }
  destruct (match_or_not ckpt (remap_name k)) as [(it & Hin & E) | Hno].
  - rewrite (loaded_value_unique ckpt k it Hnd Hin E).
    rewrite (loaded_value_unique ckpt' k it Hnd'
               (Permutation_in _ Hperm Hin) E).
    reflexivity.
  - rewrite (loaded_value_none ckpt k v Hno).
    rewrite (loaded_value_none ckpt' k v); [reflexivity|].
    intros it Hin. apply Hno.
    exact (Permutation_in _ (Permutation_sym Hperm) Hin).
Qed.

Lemma remap_loop_values ckpt d k (t : Tensor) :
  remap_loop ckpt d !! k = Some t ->
  d !! k = Some t \/ In t (map snd ckpt).
Proof.
  rewrite remap_loop_lookup. destruct (d !! k) as [v|]; [|discriminate].
  cbn. intros [= <-].
  destruct (loaded_value_cases ckpt k) as [Hid | (t & Hin & Hconst)].
  - left. rewrite Hid. reflexivity.
  - right. rewrite Hconst. exact Hin.
Qed.

(** X20.  The two nested loops treat every internal parameter on its own:
    the mapping they leave is the initial one with, under each name, the
    tensor of the last checkpoint item whose stripped name is the remapped
    name, or the initial tensor when there is none. *)
Theorem X20_remap_pointwise ckpt d :
  remap_loop ckpt d = map_imap (fun k v => Some (loaded_value ckpt k v)) d.
Proof.
  apply map_eq. intros k. rewrite remap_loop_lookup, map_lookup_imap.
  destruct (d !! k); reflexivity.
Qed.

(** X21.  Running the remapping a second time with the same checkpoint, or
    once with the checkpoint listed twice, changes nothing. *)
Theorem X21_remap_idempotent ckpt d :
  remap_loop ckpt (remap_loop ckpt d) = remap_loop ckpt d
  /\ remap_loop (ckpt ++ ckpt) d = remap_loop ckpt d.
Proof.
  split; [apply remap_loop_twice|].
  rewrite remap_loop_app. apply remap_loop_twice.
Qed.

(** X24.  The remapping makes up no tensor and no name: what it leaves
    under a name is the initial tensor of that name or a tensor of the
    checkpoint, and a name the initial mapping lacks is still lacking. *)
Theorem X24_remap_values ckpt d k :
  match remap_loop ckpt d !! k with
  | Some t => d !! k = Some t \/ In t (map snd ckpt)
  | None => d !! k = None
  end.
Proof.
  destruct (remap_loop ckpt d !! k) as [t|] eqn:E.
  - exact (remap_loop_values ckpt d k t E).
  - destruct (d !! k) as [v|] eqn:Hk; [|reflexivity].
    destruct (proj2 (remap_loop_is_Some ckpt d k) (ex_intro _ v Hk)) as [x Hx].
    rewrite Hx in E. discriminate.
Qed.

(** X25.  A checkpoint written under the network's own internal names: a
    parameter whose remapped name is not an internal name, as for the
    second stage, keeps its initial tensor, the checkpoint's tensor for it
    being ignored; a parameter whose name the replacements leave alone
    takes the checkpoint's tensor for it. *)
Theorem X25_reload_own_names ckpt d k v :
  d !! k = Some v ->
  Forall (fun it => is_Some (d !! fst it)
                    /\ contains "module." (fst it) = false) ckpt ->
  (d !! remap_name k = None -> remap_loop ckpt d !! k = Some v)
  /\ (remap_name k = k -> List.NoDup (map fst ckpt) ->
      forall v1, In (k, v1) ckpt -> remap_loop ckpt d !! k = Some v1).
Proof.
  intros Hk Hown.
  assert (Hstrip : forall it, In it ckpt -> strip_module (fst it) = fst it).
  { intros it Hin.
    destruct (proj1 (List.Forall_forall _ _) Hown it Hin) as [_ Hno].
    apply str_replace_absent. exact Hno. }
  split.
  - intros Hnone. rewrite remap_loop_lookup, Hk. cbn. f_equal.
    apply loaded_value_none. intros it Hin E.
    destruct (proj1 (List.Forall_forall _ _) Hown it Hin) as [[x Hx] _].
    rewrite (Hstrip it Hin) in E. rewrite E, Hnone in Hx. discriminate.
  - intros Hfix Hnd v1 Hin. rewrite remap_loop_lookup, Hk. cbn. f_equal.
    apply (loaded_value_unique ckpt k (k, v1)); [|exact Hin|].
    + rewrite (map_ext_in _ fst); [exact Hnd|]. exact Hstrip.
    + rewrite (Hstrip (k, v1) Hin), Hfix. reflexivity.
Qed.

(** X26.  Called with a non-empty source locator, the method passes on the
    exception of a failed fetch; given a checkpoint it returns the network
    with the remapped tensors when each of them fits its parameter, and
    raises the runtime error of the strict load when one does not; a
    returned network carries exactly the names it was built with. *)
Theorem X26_fetch_outcome globals (url : string) :
  truthy (Some url) = true ->
  let out := mobilenetv2 initial_params load_state_dict_from_url globals
                         {| pretrained := Some url |} in
  (forall e, load_state_dict_from_url url = inl e -> out = inl e)
  /\ (forall ckpt,
        load_state_dict_from_url url = inr ckpt ->
        exists m,
          (fits_all (initial_params m) (remap_loop ckpt (initial_params m)) ->
           out = inr {| net := m;
                        params := remap_loop ckpt (initial_params m) |})
          /\ (~ fits_all (initial_params m)
                         (remap_loop ckpt (initial_params m)) ->
              exists msg, out = inl (RuntimeError msg)))
  /\ (forall m, out = inr m -> dom (params m) = dom (initial_params (net m))).
Proof.
  intros Hp out. subst out. split; [|split].
  - intros e Hf. apply mobilenetv2_fetch_failed; assumption.
  - intros ckpt Hf. exists (expected_net table1 table2 1).
    rewrite (mobilenetv2_pretrained initial_params load_state_dict_from_url
               globals url ckpt Hp Hf).
    destruct (decide _) as [Hfit | Hfit]; split; intros H;
      try contradiction; try reflexivity.
    eexists. reflexivity.
  - intros m.
    destruct (load_state_dict_from_url url) as [e0 | ckpt] eqn:Hf.
    + rewrite (mobilenetv2_fetch_failed initial_params
                 load_state_dict_from_url globals url e0 Hp Hf).
      discriminate.
    + rewrite (mobilenetv2_pretrained initial_params load_state_dict_from_url
                 globals url ckpt Hp Hf).
      destruct (decide _) as [_ | _]; [|discriminate].
      intros [= <-]. cbn [params net]. apply remap_loop_dom.
Qed.

End LoaderFurther.

Lemma X22_remap_untaken_witness :
  ~ taken_by ({[ "features.0.0.weight" := 1 ]} : gmap string Z)
             ("module.classifier.weight", 7)
  /\ remap_loop ([("features.0.0.weight", 5)]
                 ++ ("module.classifier.weight", 7) :: [])
                ({[ "features.0.0.weight" := 1 ]} : gmap string Z)
     = remap_loop ([("features.0.0.weight", 5)] ++ [])
                  ({[ "features.0.0.weight" := 1 ]} : gmap string Z).
Proof.
  assert (Hno : ~ taken_by ({[ "features.0.0.weight" := 1 ]} : gmap string Z)
                           ("module.classifier.weight", 7)).
  { intros (k2 & [x Hx] & E).
    apply lookup_singleton_Some in Hx as [<- _].
    vm_compute in E. discriminate E. }
  split; [exact Hno|].
  exact (X22_remap_untaken [("features.0.0.weight", 5)]
           ("module.classifier.weight", 7) [] _ Hno).
Defined.

Lemma X23_remap_order_witness :
  List.NoDup (map (fun it : string * Z => strip_module (fst it))
                  [("module.a", 1); ("b", 2)])
  /\ Permutation [("module.a", 1); ("b", 2)] [("b", 2); ("module.a", 1)]
  /\ remap_loop [("module.a", 1); ("b", 2)] ({[ "a" := 0 ]} : gmap string Z)
     = remap_loop [("b", 2); ("module.a", 1)] ({[ "a" := 0 ]} : gmap string Z).
Proof.
  assert (Hnd : List.NoDup (map (fun it : string * Z => strip_module (fst it))
                                [("module.a", 1); ("b", 2)])).
  { change (List.NoDup ["a"; "b"]).
    constructor; [|constructor; [intros []|constructor]].
    intros [H | []]. discriminate H. }
  assert (Hp : Permutation [("module.a", 1); ("b", 2)]
                           [("b", 2); ("module.a", 1)])
    by apply perm_swap.
  split; [exact Hnd|]. split; [exact Hp|].
  exact (X23_remap_order _ _ _ Hnd Hp).
Defined.

Lemma X25_reload_own_names_witness :
  let d : gmap string Z := {[ "features2.0.conv.0.weight" := 1 ]} in
  let ckpt := [("features2.0.conv.0.weight", 9)] in
  d !! "features2.0.conv.0.weight" = Some 1
  /\ remap_loop ckpt d !! "features2.0.conv.0.weight" = Some 1.
Proof.
  intros d ckpt.
  assert (Hk : d !! "features2.0.conv.0.weight" = Some 1)
    by apply lookup_singleton_eq.
  assert (Hown : Forall (fun it : string * Z =>
                           is_Some (d !! fst it)
                           /\ contains "module." (fst it) = false) ckpt).
  { constructor; [|constructor]. split; [|reflexivity].
    exists 1. exact Hk. }
  assert (Hnone : d !! remap_name "features2.0.conv.0.weight" = None).
  { change (remap_name "features2.0.conv.0.weight")
      with "features.14.conv.0.weight".
    apply lookup_singleton_ne. discriminate. }
  split; [exact Hk|].
  exact (proj1 (X25_reload_own_names ckpt d _ 1 Hk Hown) Hnone).
Defined.

Lemma X26_fetch_outcome_witness :
  truthy (Some "u") = true
  /\ exists msg,
       mobilenetv2
         (fun _ => ({[ "features.0.0.weight" := [0; 0; 0] ]}
                    : gmap string (list Z)))
         (fun _ => inr [("features.0.0.weight", [0])]) []
         {| pretrained := Some "u" |}
       = inl (RuntimeError msg).
Proof.
  split; [reflexivity|].
  destruct (X26_fetch_outcome
              (fun _ => ({[ "features.0.0.weight" := [0; 0; 0] ]}
                         : gmap string (list Z)))
              (fun _ => inr [("features.0.0.weight", [0])]) [] "u" eq_refl)
    as (_ & Hgiven & _).
  destruct (Hgiven [("features.0.0.weight", [0])] eq_refl)
    as (m & _ & Hreject).
  apply Hreject. intros Hfit.
  assert (Hk : ({[ "features.0.0.weight" := [0; 0; 0] ]}
                : gmap string (list Z)) !! "features.0.0.weight"
               = Some [0; 0; 0]) by apply lookup_singleton_eq.
  assert (Hnew : remap_loop (([] ++ ("features.0.0.weight", [0]) :: [])%list)
                   ({[ "features.0.0.weight" := [0; 0; 0] ]}
                    : gmap string (list Z))
                 !! "features.0.0.weight" = Some [0]).
  { apply (remap_loop_last_match [] "features.0.0.weight" [0] []
             _ "features.0.0.weight" [0; 0; 0] Hk);
      [vm_compute; reflexivity | apply List.Forall_nil]. }
  pose proof (Hfit "features.0.0.weight" [0] Hnew) as Hbad.
  cbn beta in Hbad. rewrite Hk in Hbad. discriminate Hbad.
Defined.

